(** * jsondiff: the filtering pipeline, the watch loop and the diff contract

    A shallow embedding of [src/jsondiff/jsondiff.py].

    Data.  A parsed JSON document is the Python value [json.loads] returns:
    [None], [bool], [int], [str], [list] and [dict].  JSON numbers are
    modelled by Python [int]s ([Z]); Python [float]s are outside the model.
    A [str] is the sequence of its code points, each below 256.  A [dict]
    keeps insertion order, so an object is an association list; [json.loads]
    never produces a repeated key, which [wf_json] records.  Python's [None]
    and JSON's [null] are the same value, [JNull].

    Effects.  The only exception the filters can raise is [AttributeError]
    (a method looked up on a value that has none); the printing can raise
    rich's [MarkupError]; a call that may raise returns [py A].  The watch
    loop is a step function on the watcher's mutable state, fed with the
    outcome of the HTTP request and of the cache write of that tick; what
    [DeepDiff], [json.dumps] and rich do with a document or a text is a
    parameter of the loop ([Display]). *)

From Stdlib Require Import ZArith List String Ascii Bool Lia DecimalString DecimalNat.
From stdpp Require Import gmap strings list fin_maps.

Local Open Scope string_scope.
Local Open Scope list_scope.
Local Open Scope Z_scope.

(** ** JSON values as Python sees them *)

Unset Elimination Schemes.
Inductive json : Type :=
| JNull
| JBool (b : bool)
| JNumber (n : Z)
| JString (s : string)
| JArray (items : list json)
| JObject (fields : list (string * json)).
Set Elimination Schemes.

(** ** Python built-ins used by the program *)

Module Py.

(** Exceptions and computations that may raise: [AttributeError] from the
    filters, rich's [MarkupError] from the printing. *)
Inductive exn : Type := AttributeError | MarkupError.

Inductive py (A : Type) : Type :=
| Val (a : A)
| Raise (e : exn).
Arguments Val {A} a.
Arguments Raise {A} e.

Definition bind {A B : Type} (m : py A) (k : A -> py B) : py B :=
  match m with
  | Val a => k a
  | Raise e => Raise e
  end.

(** [c in s] for a one-character [c]. *)
Fixpoint contains (c : ascii) (s : string) : bool :=
  match s with
  | EmptyString => false
  | String x s' => Ascii.eqb x c || contains c s'
  end.

(** [s.index(c)]: position of the first [c]; [None] where Python raises
    [ValueError]. *)
Fixpoint index (c : ascii) (s : string) : option nat :=
  match s with
  | EmptyString => None
  | String x s' => if Ascii.eqb x c then Some 0%nat else option_map S (index c s')
  end.

(** [s[lo:hi]] for non-negative bounds; an empty or inverted range is [""]. *)
Definition slice (lo hi : nat) (s : string) : string :=
  substring lo (hi - lo) s.

(** [s.split(c)] for a one-character separator. *)
Fixpoint split (c : ascii) (s : string) : list string :=
  match s with
  | EmptyString => [EmptyString]
  | String x s' =>
      if Ascii.eqb x c then EmptyString :: split c s'
      else match split c s' with
           | h :: t => String x h :: t
           | [] => [String x EmptyString]
           end
  end.

(** [sep.join(parts)]. *)
Fixpoint join (sep : string) (parts : list string) : string :=
  match parts with
  | [] => EmptyString
  | [p] => p
  | p :: ps => p +:+ sep +:+ join sep ps
  end.

(** White space that [int] strips: the ASCII class and, above 127,
    U+0085 and U+00A0. *)
Definition is_space (c : ascii) : bool :=
  let n := nat_of_ascii c in
  ((9 <=? n) && (n <=? 13) || (n =? 32) || (n =? 133) || (n =? 160))%nat.

Fixpoint lstrip (s : string) : string :=
  match s with
  | String c s' => if is_space c then lstrip s' else s
  | EmptyString => EmptyString
  end.

Fixpoint rev_onto (s acc : string) : string :=
  match s with
  | EmptyString => acc
  | String c s' => rev_onto s' (String c acc)
  end.

Definition reversed (s : string) : string := rev_onto s EmptyString.

Definition strip (s : string) : string := reversed (lstrip (reversed (lstrip s))).

Definition digit_of (c : ascii) : option Z :=
  let n := nat_of_ascii c in
  if ((48 <=? n) && (n <=? 57))%nat then Some (Z.of_nat (n - 48)) else None.

Inductive int_state : Type := IntStart | IntDigit | IntUnderscore.

(** The digits of a base-10 literal; a single underscore may separate two
    digits. *)
Fixpoint int_body (st : int_state) (acc : Z) (s : string) : option Z :=
  match s with
  | EmptyString => match st with IntDigit => Some acc | _ => None end
  | String c s' =>
      match digit_of c with
      | Some d => int_body IntDigit (10 * acc + d) s'
      | None =>
          if Ascii.eqb c "_"
          then match st with IntDigit => int_body IntUnderscore acc s' | _ => None end
          else None
      end
  end.

(** [int(s)]; [None] where Python raises [ValueError]. *)
Definition int (s : string) : option Z :=
  match strip s with
  | String "+" s' => int_body IntStart 0 s'
  | String "-" s' => option_map Z.opp (int_body IntStart 0 s')
  | s' => int_body IntStart 0 s'
  end.

(** [str(n)] of an [int]. *)
Definition str_int (n : Z) : string := NilZero.string_of_int (Z.to_int n).

(** [str(i)] of a list position. *)
Definition str_nat (i : nat) : string := NilZero.string_of_uint (Nat.to_uint i).

Definition dquote : ascii := ascii_of_nat 34.
Definition squote : ascii := ascii_of_nat 39.
Definition backslash : ascii := ascii_of_nat 92.

Definition hex_digit (n : nat) : ascii :=
  if (n <? 10)%nat then ascii_of_nat (48 + n) else ascii_of_nat (87 + n).

Definition printable (c : ascii) : bool :=
  let n := nat_of_ascii c in
  ((32 <=? n) && (n <=? 126) || (161 <=? n) && negb (n =? 173))%nat.

Definition repr_char (quote c : ascii) : string :=
  let n := nat_of_ascii c in
  if Ascii.eqb c quote || Ascii.eqb c backslash then String backslash (String c EmptyString)
  else if (n =? 9)%nat then String backslash "t"
  else if (n =? 10)%nat then String backslash "n"
  else if (n =? 13)%nat then String backslash "r"
  else if printable c then String c EmptyString
  else String backslash (String "x" (String (hex_digit (n / 16)) (String (hex_digit (n mod 16)) EmptyString))).

Fixpoint repr_chars (quote : ascii) (s : string) : string :=
  match s with
  | EmptyString => EmptyString
  | String c s' => repr_char quote c +:+ repr_chars quote s'
  end.

(** [repr(s)] of a [str]: single quotes unless the text has a single quote
    and no double quote. *)
Definition repr_str (s : string) : string :=
  let quote := if contains squote s && negb (contains dquote s) then dquote else squote in
  String quote (repr_chars quote s +:+ String quote EmptyString).

(** [repr(v)], which [str] falls back to for everything but a [str]. *)
Fixpoint repr (v : json) : string :=
  match v with
  | JNull => "None"
  | JBool true => "True"
  | JBool false => "False"
  | JNumber n => str_int n
  | JString s => repr_str s
  | JArray items => "[" +:+ join ", " (map repr items) +:+ "]"
  | JObject fields =>
      "{" +:+ join ", " (map (fun kv => repr_str (fst kv) +:+ ": " +:+ repr (snd kv)) fields) +:+ "}"
  end.

(** [str(v)]. *)
Definition str (v : json) : string :=
  match v with
  | JString s => s
  | _ => repr v
  end.

(** Truth value of a [str] and of an [Optional[str]]. *)
Definition truthy_str (s : string) : bool :=
  match s with EmptyString => false | _ => true end.

Definition truthy_opt (o : option string) : bool :=
  match o with Some s => truthy_str s | None => false end.

(** [bool(v)]. *)
Definition truthy (v : json) : bool :=
  match v with
  | JNull => false
  | JBool b => b
  | JNumber n => negb (n =? 0)
  | JString s => truthy_str s
  | JArray items => match items with [] => false | _ => true end
  | JObject fields => match fields with [] => false | _ => true end
  end.

(** [v is None]. *)
Definition is_None (v : json) : bool :=
  match v with JNull => true | _ => false end.

(** [d.get(k)] on the entries of a [dict]; [None] when [k not in d]. *)
Fixpoint dict_get {A : Type} (k : string) (d : list (string * A)) : option A :=
  match d with
  | [] => None
  | (k', v) :: d' => if String.eqb k' k then Some v else dict_get k d'
  end.

(** [d[k] = v]: an existing key keeps its position, a new one goes last. *)
Fixpoint dict_set {A : Type} (k : string) (v : A) (d : list (string * A)) : list (string * A) :=
  match d with
  | [] => [(k, v)]
  | (k', v') :: d' => if String.eqb k' k then (k, v) :: d' else (k', v') :: dict_set k v d'
  end.

End Py.
Import Py.

Notation "'do' x <- m ; k" := (bind m (fun x => k))
  (at level 10, x name, m at level 100, k at level 200).

(** The keys of every object are pairwise distinct, at every depth. *)
Fixpoint wf_json (v : json) : Prop :=
  match v with
  | JArray items => fold_right (fun x P => wf_json x /\ P) True items
  | JObject fields =>
      NoDup (map fst fields) /\ fold_right (fun kv P => wf_json (snd kv) /\ P) True fields
  | _ => True
  end.

(** Induction on JSON values: the elements of an array and the values of
    an object satisfy the property. *)
Section JsonInd.
Variable P : json -> Prop.
Hypothesis Hnull : P JNull.
Hypothesis Hbool : forall b, P (JBool b).
Hypothesis Hnumber : forall n, P (JNumber n).
Hypothesis Hstring : forall s, P (JString s).
Hypothesis Harray : forall items, Forall P items -> P (JArray items).
Hypothesis Hobject : forall fields, Forall (fun kv => P (snd kv)) fields -> P (JObject fields).

Fixpoint json_ind (v : json) : P v :=
  match v with
  | JNull => Hnull
  | JBool b => Hbool b
  | JNumber n => Hnumber n
  | JString s => Hstring s
  | JArray items =>
      Harray items
        ((fix all (l : list json) : Forall P l :=
            match l with
            | [] => List.Forall_nil P
            | x :: l' => List.Forall_cons P x l' (json_ind x) (all l')
            end) items)
  | JObject fields =>
      Hobject fields
        ((fix all (l : list (string * json)) : Forall (fun kv => P (snd kv)) l :=
            match l with
            | [] => List.Forall_nil _
            | kv :: l' => List.Forall_cons _ kv l' (json_ind (snd kv)) (all l')
            end) fields)
  end.
End JsonInd.

(** ** The watcher *)

(** The fields of [JSONDiffWatcher] the filters read.  [url], [interval],
    [headers] and [show_only_diffs] only reach the HTTP request and the
    rendering. *)
Record JSONDiffWatcher : Type := {
  filter_path : option string;
  filter_key : option string;
  filter_value : option string
}.

(** *** [_apply_path_filter] *)

(** What one iteration of the [for part in parts] loop does: go on with a
    new [result], or leave the function through a [return]. *)
Inductive flow : Type :=
| Next (result : json)
| Return (result : json).

(** [result.get(key, {})]: only a [dict] has [get]. *)
Definition get_or_empty (result : json) (key : string) : py json :=
  match result with
  | JObject fields =>
      Val (match dict_get key fields with Some v => v | None => JObject [] end)
  | _ => Raise AttributeError
  end.

(** The body of the loop.  [c in part] holds exactly when [index c part]
    is found, so the two tests of the [if] are the two [Some]s. *)
Definition path_part (result : json) (part : string) : py flow :=
  match index "[" part, index "]" part with
  | Some lb, Some rb =>
      let key := slice 0 lb part in
      let index_part := slice (lb + 1) rb part in
      do result <- (if truthy_str key then get_or_empty result key else Val result);
      if String.eqb index_part "*" then
        match result with
        | JArray _ => Val (Next result)
        | _ => Val (Return (JObject []))
        end
      else
        match int index_part with
        | Some idx =>
            match result with
            | JArray items =>
                if (0 <=? idx) && (idx <? Z.of_nat (length items)) then
                  match items !! Z.to_nat idx with
                  | Some x => Val (Next x)
                  | None => Val (Return (JObject []))
                  end
                else Val (Return (JObject []))
            | _ => Val (Return (JObject []))
            end
        | None => Val (Return (JObject []))
        end
  | _, _ =>
      match result with
      | JObject fields =>
          Val (Next (match dict_get part fields with Some v => v | None => JObject [] end))
      | _ => Val (Return (JObject []))
      end
  end.

Fixpoint path_loop (parts : list string) (result : json) : py json :=
  match parts with
  | [] => Val result
  | part :: parts' =>
      do step <- path_part result part;
      match step with
      | Next result' => path_loop parts' result'
      | Return r => Val r
      end
  end.

Definition _apply_path_filter (data : json) (path : string) : py json :=
  path_loop (split "." path) data.

(** *** [_find_and_filter_key] *)

(** [value is None or str(v) == value]. *)
Definition value_matches (value : option string) (v : json) : bool :=
  match value with
  | None => true
  | Some text => String.eqb (str v) text
  end.

(** The two [for] loops of the function, each threading the [result] it
    builds; [search] stands for the recursive call on a child. *)
Section SearchLoops.
Variable search : json -> json.

Fixpoint items_loop (todo : list (string * json)) (result : list (string * json))
    : list (string * json) :=
  match todo with
  | [] => result
  | (k, v) :: todo' =>
      let filtered := search v in
      items_loop todo' (if truthy filtered then dict_set k filtered result else result)
  end.

Fixpoint item_loop (todo : list json) (result : list json) : list json :=
  match todo with
  | [] => result
  | item :: todo' =>
      let filtered := search item in
      item_loop todo' (if truthy filtered then result ++ [filtered] else result)
  end.
End SearchLoops.

(** The function returns a [dict], a [list] or [None]; [None] is [JNull].
    When [key] is in [data] but its value does not match, control falls
    out of the outer [if] into the loop over [data.items()]. *)
Fixpoint _find_and_filter_key (data : json) (key : string) (value : option string) : json :=
  match data with
  | JObject fields =>
      let found :=
        match dict_get key fields with
        | Some v => if value_matches value v then Some (JObject [(key, v)]) else None
        | None => None
        end in
      match found with
      | Some r => r
      | None =>
          let result := items_loop (fun v => _find_and_filter_key v key value) fields [] in
          if truthy (JObject result) then JObject result else JNull
      end
  | JArray items =>
      let result := item_loop (fun item => _find_and_filter_key item key value) items [] in
      if truthy (JArray result) then JArray result else JNull
  | _ => JNull
  end.

(** Neither a [list] nor a [dict]. *)
Definition is_scalar (v : json) : bool :=
  match v with
  | JArray _ | JObject _ => false
  | _ => true
  end.

(** What a child contributes to the object rebuilt by [items_loop]. *)
Definition found_field (search : json -> json) (kv : string * json) : option (string * json) :=
  let filtered := search (snd kv) in
  if truthy filtered then Some (fst kv, filtered) else None.

(** What an element contributes to the list rebuilt by [item_loop]. *)
Definition found_item (search : json -> json) (item : json) : option json :=
  let filtered := search item in
  if truthy filtered then Some filtered else None.

(** *** [filter_json] *)

(** One iteration of [for item in result] in the list branch. *)
Definition keep_item (key : string) (value : option string)
    (filtered : list json) (item : json) : list json :=
  match item with
  | JObject fields =>
      match dict_get key fields with
      | Some v => if value_matches value v then filtered ++ [item] else filtered
      | None => filtered
      end
  | _ => filtered
  end.

(** The elements the list branch keeps, as section 4.2 words it: an object
    that contains [key] and, when a value is given, whose [str] at [key]
    equals it. *)
Definition retained (key : string) (value : option string) (item : json) : bool :=
  match item with
  | JObject fields =>
      match dict_get key fields with
      | Some v => value_matches value v
      | None => false
      end
  | _ => false
  end.

(** The [if]/[elif] on [self.filter_key] that follows the path filter. *)
Definition key_filter (w : JSONDiffWatcher) (result : json) : json :=
  match filter_key w with
  | Some key =>
      if truthy_str key then
        match result with
        | JArray items => JArray (fold_left (keep_item key (filter_value w)) items [])
        | JObject fields =>
            match dict_get key fields with
            | Some v =>
                if value_matches (filter_value w) v then JObject [(key, v)] else JObject []
            | None => _find_and_filter_key result key (filter_value w)
            end
        | _ => result
        end
      else result
  | None => result
  end.

Definition filter_json (w : JSONDiffWatcher) (data : json) : py json :=
  if negb (truthy_opt (filter_path w) || truthy_opt (filter_key w)) then Val data
  else
    do result <- (match filter_path w with
                  | Some path => if truthy_str path then _apply_path_filter data path else Val data
                  | None => Val data
                  end);
    Val (key_filter w result).

(** ** The diff engine

    [display_diff] computes the difference with
    [DeepDiff(previous_filtered, current_filtered, ignore_order=False,
    verbose_level=2)].  [deepdiff] is a library the program imports; its
    code is not part of the sources. *)

Module DiffEngine.

(** Modelled from the spec: the [DiffResult] of section 3, five mappings
    from a path string to the values found there; the library that builds
    it is missing from the sources. *)
Record DiffResult : Type := {
  added : gmap string json;
  removed : gmap string json;
  changed : gmap string (json * json);
  list_added : gmap string json;
  list_removed : gmap string json
}.

(** Modelled from the spec: the empty [DiffResult], "no detected
    difference" in section 3. *)
Definition no_diff : DiffResult :=
  {| added := ∅; removed := ∅; changed := ∅; list_added := ∅; list_removed := ∅ |}.

(** Modelled from the spec: the entries of two results put together,
    bucket by bucket; the library that collects them is missing from the
    sources. *)
Definition merge (d1 d2 : DiffResult) : DiffResult :=
  {| added := added d1 ∪ added d2;
     removed := removed d1 ∪ removed d2;
     changed := changed d1 ∪ changed d2;
     list_added := list_added d1 ∪ list_added d2;
     list_removed := list_removed d1 ∪ list_removed d2 |}.

(** Modelled from the spec: the five kinds of entry of section 4.4, each
    a result with one entry at [path]. *)
Definition added_at (path : string) (v : json) : DiffResult :=
  {| added := {[path := v]}; removed := ∅; changed := ∅; list_added := ∅; list_removed := ∅ |}.

Definition removed_at (path : string) (v : json) : DiffResult :=
  {| added := ∅; removed := {[path := v]}; changed := ∅; list_added := ∅; list_removed := ∅ |}.

Definition changed_at (path : string) (old new : json) : DiffResult :=
  {| added := ∅; removed := ∅; changed := {[path := (old, new)]};
     list_added := ∅; list_removed := ∅ |}.

Definition list_added_at (path : string) (v : json) : DiffResult :=
  {| added := ∅; removed := ∅; changed := ∅; list_added := {[path := v]}; list_removed := ∅ |}.

Definition list_removed_at (path : string) (v : json) : DiffResult :=
  {| added := ∅; removed := ∅; changed := ∅; list_added := ∅; list_removed := {[path := v]} |}.

(** Modelled from the spec: the path of a key below [path].  The examples
    of section 8 write a key of the root bare ([b], [c]) and section 4.4
    extends a path by [.key]; the path builder is missing from the
    sources. *)
Definition key_path (path key : string) : string :=
  if truthy_str path then path +:+ "." +:+ key else key.

(** Modelled from the spec: the path of a position below [path], written
    [path[index]] in section 4.4 and [[2]] at the root in section 8. *)
Definition index_path (path : string) (i : nat) : string :=
  path +:+ "[" +:+ str_nat i +:+ "]".

(** Modelled from the spec: scalar equality of section 4.4, exact on null,
    booleans, strings and (integer) numbers; false across type tags. *)
Definition scalar_eq (a b : json) : bool :=
  match a, b with
  | JNull, JNull => true
  | JBool x, JBool y => Bool.eqb x y
  | JNumber x, JNumber y => (x =? y)%Z
  | JString x, JString y => String.eqb x y
  | _, _ => false
  end.

(** Modelled from the spec: the equality notion section 4.4 asks for,
    defined without the diff: same type tag; equal scalars; arrays of the
    same length with identical elements position by position; objects with
    the same keys and identical values under each key.  [same] stands for
    the recursive call on two children. *)
Section Identical.
Variable same : json -> json -> bool.

Fixpoint pointwise (xs ys : list json) : bool :=
  match xs, ys with
  | [], [] => true
  | x :: xs', y :: ys' => same x y && pointwise xs' ys'
  | _, _ => false
  end.

Fixpoint each_key (fb : list (string * json)) (todo : list (string * json)) : bool :=
  match todo with
  | [] => true
  | (k, v) :: todo' =>
      match dict_get k fb with
      | Some v' => same v v'
      | None => false
      end && each_key fb todo'
  end.
End Identical.

(** [k in d]. *)
Definition has_key {A : Type} (d : list (string * A)) (k : string) : bool :=
  match dict_get k d with Some _ => true | None => false end.

(** Modelled from the spec: structural identity, the equality notion of
    sections 4.4 and 8 that does not go through the diff. *)
Fixpoint structurally_identical (a b : json) : bool :=
  match a, b with
  | JArray xs, JArray ys => pointwise structurally_identical xs ys
  | JObject fa, JObject fb =>
      each_key structurally_identical fb fa && forallb (has_key fa) (map fst fb)
  | JArray _, _ | JObject _, _ | _, JArray _ | _, JObject _ => false
  | _, _ => scalar_eq a b
  end.

(** Modelled from the spec: the keys present only in [current], each an
    [added] entry. *)
Fixpoint only_in_current (path : string) (previous current : list (string * json)) : DiffResult :=
  match current with
  | [] => no_diff
  | (k, v) :: current' =>
      merge (match dict_get k previous with
             | Some _ => no_diff
             | None => added_at (key_path path k) v
             end)
            (only_in_current path previous current')
  end.

(** Modelled from the spec: the positions present only in [current], from
    position [i] on, each a [list_added] entry. *)
Fixpoint beyond_previous (path : string) (i : nat) (current : list json) : DiffResult :=
  match current with
  | [] => no_diff
  | c :: current' =>
      merge (list_added_at (index_path path i) c) (beyond_previous path (S i) current')
  end.

(** Modelled from the spec: the two traversals of section 4.4; [compare]
    stands for the recursive call at a path on two children.  The keys of
    [previous] are removed or compared.  The positions of two arrays are
    walked together: identical elements give no entry, the others are
    compared, the surplus is [list_removed] or [list_added]. *)
Section Traversals.
Variable compare : string -> json -> json -> DiffResult.

Fixpoint in_previous (path : string) (cf : list (string * json))
    (todo : list (string * json)) : DiffResult :=
  match todo with
  | [] => no_diff
  | (k, v) :: todo' =>
      merge (match dict_get k cf with
             | Some v' => compare (key_path path k) v v'
             | None => removed_at (key_path path k) v
             end)
            (in_previous path cf todo')
  end.

Fixpoint by_index (path : string) (i : nat) (ps cs : list json) : DiffResult :=
  match ps, cs with
  | [], _ => beyond_previous path i cs
  | p :: ps', [] =>
      merge (list_removed_at (index_path path i) p) (by_index path (S i) ps' [])
  | p :: ps', c :: cs' =>
      merge (if structurally_identical p c then no_diff
             else compare (index_path path i) p c)
            (by_index path (S i) ps' cs')
  end.
End Traversals.

(** Modelled from the spec: the recursive algorithm of section 4.4 at
    [path].  Two objects: the keys of [previous], then the keys only in
    [current], each [added].  Two arrays: position by position.  Anything
    else is one [changed] entry unless the two are equal scalars. *)
Fixpoint diff_at (path : string) (previous current : json) : DiffResult :=
  match previous, current with
  | JObject pf, JObject cf =>
      merge (in_previous diff_at path cf pf) (only_in_current path pf cf)
  | JArray ps, JArray cs => by_index diff_at path 0 ps cs
  | _, _ =>
      if scalar_eq previous current then no_diff else changed_at path previous current
  end.

(** Modelled from the spec: [diff(previous, current)], the algorithm
    started at the root path. *)
Definition diff (previous current : json) : DiffResult := diff_at "" previous current.

(** *** Applying a diff

    Neither the program nor the library call it makes applies a diff
    back. *)

(** Modelled from the spec: a key that a path string renders without
    ambiguity: not empty, and free of the two characters that extend a
    path, [.] and [[]. *)
Definition good_key (k : string) : bool :=
  truthy_str k && negb (contains "." k) && negb (contains "[" k).

(** Every key of every object of [v] is a [good_key]. *)
Fixpoint good_keys (v : json) : Prop :=
  match v with
  | JArray items => fold_right (fun x P => good_keys x /\ P) True items
  | JObject fields =>
      fold_right (fun kv P => (good_key (fst kv) = true /\ good_keys (snd kv)) /\ P) True fields
  | _ => True
  end.

(** [s] without its prefix [p], when it has it. *)
Fixpoint strip_prefix (p s : string) : option string :=
  match p, s with
  | EmptyString, _ => Some s
  | String c p', String c' s' => if Ascii.eqb c c' then strip_prefix p' s' else None
  | String _ _, EmptyString => None
  end.

(** The key [k] with [q = key_path path k], when [q] is the path of a key
    directly below [path]. *)
Definition key_below (path q : string) : option string :=
  match (if truthy_str path then strip_prefix (path +:+ ".") q else Some q) with
  | Some k => if good_key k then Some k else None
  | None => None
  end.

(** Modelled from the spec: "re-applying the entries" of section 8, which
    no code of the sources does: the value at a [changed] path is replaced
    by the new value, a key at a [removed] path is deleted, each [added]
    path directly below an object is inserted with its value; and, for the
    two list buckets, a position at a [list_removed] path is dropped and
    the [list_added] values are appended in the order of their positions.
    [below] stands for the recursive call on a child. *)
Section Apply.
Variable d : DiffResult.

Section Children.
Variable below : string -> json -> json.

Fixpoint kept_fields (path : string) (fields : list (string * json))
    : list (string * json) :=
  match fields with
  | [] => []
  | (k, v) :: fields' =>
      match removed d !! key_path path k with
      | Some _ => kept_fields path fields'
      | None => (k, below (key_path path k) v) :: kept_fields path fields'
      end
  end.

Fixpoint kept_items (path : string) (i : nat) (items : list json) : list json :=
  match items with
  | [] => []
  | x :: items' =>
      match list_removed d !! index_path path i with
      | Some _ => kept_items path (S i) items'
      | None => below (index_path path i) x :: kept_items path (S i) items'
      end
  end.
End Children.

(** Modelled from the spec: the [added] entries whose path is that of a
    key directly below [path]. *)
Definition added_fields (path : string) : list (string * json) :=
  omap (fun e => match key_below path (fst e) with
                 | Some k => Some (k, snd e)
                 | None => None
                 end)
       (map_to_list (added d)).

(** Modelled from the spec: the values at positions [i], [i+1], ... of
    [list_added]; there are at most [fuel] of them when [fuel] is the size
    of the bucket. *)
Fixpoint appended_items (fuel : nat) (path : string) (i : nat) : list json :=
  match fuel with
  | O => []
  | S fuel' =>
      match list_added d !! index_path path i with
      | Some v => v :: appended_items fuel' path (S i)
      | None => []
      end
  end.

(** Modelled from the spec: the entries applied to the value [a] found at
    [path]. *)
Fixpoint apply_at (path : string) (a : json) : json :=
  match changed d !! path with
  | Some (_, new) => new
  | None =>
      match a with
      | JObject fields => JObject (kept_fields apply_at path fields ++ added_fields path)
      | JArray items =>
          JArray (kept_items apply_at path 0 items
                  ++ appended_items (size (list_added d)) path (length items))
      | _ => a
      end
  end.
End Apply.

(** Modelled from the spec: the entries applied from the root path. *)
Definition apply_diff (d : DiffResult) (a : json) : json := apply_at d "" a.

(** Modelled from the spec: the entries section 8 names for re-applying,
    [added], [removed] and [changed], without the two list buckets. *)
Definition keyed_only (d : DiffResult) : DiffResult :=
  {| added := added d; removed := removed d; changed := changed d;
     list_added := ∅; list_removed := ∅ |}.

End DiffEngine.

Import DiffEngine.

(** ** Rendering: [format_diff] and the comparison table *)

Definition nl : string := String (ascii_of_nat 10) EmptyString.

(** The [DeepDiff] object as [format_diff] reads it: a mapping from report
    kinds to reports, of which the function looks at five.  With
    [verbose_level=2] the two dictionary reports and the two iterable
    reports map a path to a value, and [values_changed] maps a path to the
    dict of a change.  [other_reports] names the report kinds present that
    the function does not read ([type_changes], ...). *)
Record DeepDiff : Type := {
  dictionary_item_added : option (list (string * json));
  dictionary_item_removed : option (list (string * json));
  values_changed : option (list (string * list (string * json)));
  iterable_item_added : option (list (string * json));
  iterable_item_removed : option (list (string * json));
  other_reports : list string
}.

Definition is_some {A : Type} (o : option A) : bool :=
  match o with Some _ => true | None => false end.

(** [bool(diff)]: a mapping is true when it has a key. *)
Definition truthy_diff (diff : DeepDiff) : bool :=
  is_some (dictionary_item_added diff) || is_some (dictionary_item_removed diff)
  || is_some (values_changed diff) || is_some (iterable_item_added diff)
  || is_some (iterable_item_removed diff)
  || match other_reports diff with [] => false | _ => true end.

(** [change.get(name, "N/A")] inside an f-string. *)
Definition change_text (name : string) (change : list (string * json)) : string :=
  match dict_get name change with
  | Some v => str v
  | None => "N/A"
  end.

(** The lines one [if ... in diff] block appends: the heading, one group
    of lines per entry, an empty line. *)
Definition section_lines {A : Type} (report : option (list (string * A)))
    (heading : string) (entry_lines : string * A -> list string) : list string :=
  match report with
  | Some entries => heading :: flat_map entry_lines entries ++ [EmptyString]
  | None => []
  end.

Definition output_lines (diff : DeepDiff) : list string :=
  ["[bold cyan]Changes detected:[/bold cyan]" +:+ nl]
  ++ section_lines (dictionary_item_added diff) "[green]Added items:[/green]"
       (fun e => ["  [green]+[/green] " +:+ fst e])
  ++ section_lines (dictionary_item_removed diff) "[red]Removed items:[/red]"
       (fun e => ["  [red]-[/red] " +:+ fst e])
  ++ section_lines (values_changed diff) "[yellow]Changed values:[/yellow]"
       (fun e => ["  [yellow]~[/yellow] " +:+ fst e;
                  "    [red]-[/red] " +:+ change_text "old_value" (snd e);
                  "    [green]+[/green] " +:+ change_text "new_value" (snd e)])
  ++ section_lines (iterable_item_added diff) "[green]Items added to list:[/green]"
       (fun e => ["  [green]+[/green] " +:+ fst e +:+ ": " +:+ str (snd e)])
  ++ section_lines (iterable_item_removed diff) "[red]Items removed from list:[/red]"
       (fun e => ["  [red]-[/red] " +:+ fst e +:+ ": " +:+ str (snd e)]).

Definition format_diff (diff : DeepDiff) : string :=
  if negb (truthy_diff diff) then EmptyString else join nl (output_lines diff).

(** The rows of the side-by-side table: line [i] of each text, or [""]
    past its last line. *)
Definition comparison_rows (prev_str curr_str : string) : list (string * string) :=
  let prev_lines := split (ascii_of_nat 10) prev_str in
  let curr_lines := split (ascii_of_nat 10) curr_str in
  let max_lines := Nat.max (length prev_lines) (length curr_lines) in
  map (fun i => (nth i prev_lines EmptyString, nth i curr_lines EmptyString))
      (seq 0 max_lines).

(** What [display_diff] prints once the diff is computed. *)
Inductive printed : Type :=
| NoChangesDetected
| JSONDifferences (diff_text : string)
| JSONComparison (rows : list (string * string))
| ChangesSummary (diff_text : string).

(** The part of [display_diff] after the [DeepDiff] call; [prev_str] and
    [curr_str] are the two [json.dumps(..., indent=2)] texts. *)
Definition display_compared (show_only_diffs : bool) (diff : DeepDiff)
    (prev_str curr_str : string) : list printed :=
  if negb (truthy_diff diff) then [NoChangesDetected]
  else if show_only_diffs then [JSONDifferences (format_diff diff)]
  else
    let diff_text := format_diff diff in
    JSONComparison (comparison_rows prev_str curr_str)
    :: (if truthy_str diff_text then [ChangesSummary diff_text] else []).

(** ** [run]: the watch loop *)

(** What lies around the filters and is not in the sources, taken as it
    comes: the report [DeepDiff(previous_filtered, current_filtered,
    ignore_order=False, verbose_level=2)] builds, the text
    [json.dumps(_, indent=2)] writes, and whether rich reads the markup of
    a text: [console.print] raises [MarkupError] on a text it cannot read,
    such as one with a closing tag that matches no open one.
    [show_only_diffs] is the field of the watcher that only the rendering
    reads. *)
Class Display : Type := {
  show_only_diffs : bool;
  deep_diff : json -> json -> DeepDiff;
  json_dumps : json -> string;
  markup : string -> bool
}.

(** [console.print(text)] on a text with markup. *)
Definition console_print `{Display} (text : string) : py unit :=
  if markup text then Val tt else Raise MarkupError.

(** What the HTTP request of a tick produced: a
    [requests.exceptions.RequestException] or a [json.JSONDecodeError],
    each with its text, or the parsed body. *)
Inductive fetch_outcome : Type :=
| FetchFailed (e : string)
| ParseFailed (e : string)
| Fetched (body : json).

(** The cache file: missing, holding a document, or cut short by a write
    that failed after the file was opened for writing. *)
Inductive cache_file : Type :=
| NoFile
| FileWith (doc : json)
| FileBroken.

(** How the write of a tick went: done, or an exception with its text
    before or after the file was opened. *)
Inductive write_outcome : Type :=
| Written
| FailedBeforeOpen (e : string)
| FailedAfterOpen (e : string).

(** What a tick puts on the terminal: the panel of the first run with the
    filtered document, the output of a comparison with the two operands of
    the [DeepDiff] call, the error line of [fetch_json] and the warning of
    [save_previous]. *)
Inductive shown : Type :=
| InitialData (current_filtered : json)
| Compared (previous_filtered current_filtered : json)
| ErrorFetching (e : string)
| ErrorParsing (e : string)
| SaveWarning (e : string).

(** [fetch_json] returns the parsed body, or prints an error line and
    returns [None]. *)
Definition fetch_json `{Display} (o : fetch_outcome) : py (json * list shown) :=
  match o with
  | Fetched body => Val (body, [])
  | FetchFailed e =>
      do _ <- console_print ("[red]Error fetching JSON:[/red] " +:+ e);
      Val (JNull, [ErrorFetching e])
  | ParseFailed e =>
      do _ <- console_print ("[red]Error parsing JSON:[/red] " +:+ e);
      Val (JNull, [ErrorParsing e])
  end.

(** [save_previous] catches every exception of the write and prints a
    warning. *)
Definition save_previous `{Display} (data : json) (o : write_outcome) (file : cache_file)
    : py (cache_file * list shown) :=
  match o with
  | Written => Val (FileWith data, [])
  | FailedBeforeOpen e =>
      do _ <- console_print ("[yellow]Warning: Could not save previous data:[/yellow] " +:+ e);
      Val (file, [SaveWarning e])
  | FailedAfterOpen e =>
      do _ <- console_print ("[yellow]Warning: Could not save previous data:[/yellow] " +:+ e);
      Val (FileBroken, [SaveWarning e])
  end.


(** The first statements of [display_diff], up to the [DeepDiff] call: the
    two filters and the test [previous_filtered is None]. *)
Definition display_diff_filtered (w : JSONDiffWatcher) (current previous : json) : py shown :=
  do current_filtered <- filter_json w current;
  do previous_filtered <- (if truthy previous then filter_json w previous else Val JNull);
  if is_None previous_filtered then Val (InitialData current_filtered)
  else Val (Compared previous_filtered current_filtered).

(** One [console.print] of [display_diff] after the [DeepDiff] call.  The
    text of a panel and every cell of the table are read as markup; the
    line for no changes is a fixed text. *)
Definition print_one `{Display} (p : printed) : py unit :=
  match p with
  | NoChangesDetected => Val tt
  | JSONDifferences diff_text => console_print diff_text
  | JSONComparison rows =>
      if forallb (fun row => markup (fst row) && markup (snd row)) rows then Val tt
      else Raise MarkupError
  | ChangesSummary diff_text => console_print diff_text
  end.

Fixpoint print_all `{Display} (ps : list printed) : py unit :=
  match ps with
  | [] => Val tt
  | p :: ps' => do _ <- print_one p; print_all ps'
  end.

(** [display_diff]: the panel of the first run holds no markup; a
    comparison is computed and printed, and an exception of the printing
    leaves the function. *)
Definition display_diff `{Display} (w : JSONDiffWatcher) (current previous : json) : py shown :=
  do filtered <- display_diff_filtered w current previous;
  match filtered with
  | Compared previous_filtered current_filtered =>
      do _ <- print_all (display_compared show_only_diffs
                           (deep_diff previous_filtered current_filtered)
                           (json_dumps previous_filtered) (json_dumps current_filtered));
      Val filtered
  | _ => Val filtered
  end.

(** The mutable state of the loop: [self.previous_data] and the cache file. *)
Record watch_state : Type := {
  previous_data : json;
  storage_file : cache_file
}.

(** One iteration of [while True], with what it showed.  An exception
    leaves the loop and the program (only [KeyboardInterrupt] is caught):
    [Raise] tells which one, not what was on the terminal or in the cache
    file by then. *)
Definition tick `{Display} (w : JSONDiffWatcher) (st : watch_state)
    (fetched : fetch_outcome) (written : write_outcome) : py (watch_state * list shown) :=
  do current <- fetch_json fetched;
  let current_data := fst current in
  if is_None current_data then Val (st, snd current)
  else
    do out <- (if negb (is_None (previous_data st))
               then display_diff w current_data (previous_data st)
               else display_diff w current_data JNull);
    do saved <- save_previous current_data written (storage_file st);
    Val ({| previous_data := current_data; storage_file := fst saved |},
         snd current ++ out :: snd saved).

(** [while True] over the outcomes of successive ticks, with what the
    ticks showed. *)
Fixpoint while_true `{Display} (w : JSONDiffWatcher) (st : watch_state)
    (ticks : list (fetch_outcome * write_outcome)) : py (watch_state * list shown) :=
  match ticks with
  | [] => Val (st, [])
  | (fetched, written) :: ticks' =>
      do r <- tick w st fetched written;
      do r' <- while_true w (fst r) ticks';
      Val (fst r', snd r ++ snd r')
  end.


(** The document a request leaves in [current_data]: the parsed body, or
    [None] after a failure. *)
Definition fetched_document (o : fetch_outcome) : json :=
  match o with
  | Fetched body => body
  | _ => JNull
  end.


(** ** [main]: the headers, and the cache file of [__init__] *)

(** [c.isspace()] for a code point below 256. *)
Definition isspace (c : ascii) : bool :=
  let n := nat_of_ascii c in
  ((9 <=? n) && (n <=? 13) || (28 <=? n) && (n <=? 32) || (n =? 133) || (n =? 160))%nat.

(** [s.lstrip()], [s.rstrip()] and [s.strip()]. *)
Fixpoint str_lstrip (s : string) : string :=
  match s with
  | String c s' => if isspace c then str_lstrip s' else s
  | EmptyString => EmptyString
  end.

Fixpoint str_rstrip (s : string) : string :=
  match s with
  | String c s' =>
      match str_rstrip s' with
      | EmptyString => if isspace c then EmptyString else String c EmptyString
      | rest => String c rest
      end
  | EmptyString => EmptyString
  end.

Definition str_strip (s : string) : string := str_rstrip (str_lstrip s).

(** [s.split(c, 1)] when [c in s]: the text before the first [c] and the
    text after it. *)
Fixpoint split_once (c : ascii) (s : string) : string * string :=
  match s with
  | EmptyString => (EmptyString, EmptyString)
  | String x s' =>
      if Ascii.eqb x c then (EmptyString, s')
      else let (before, after) := split_once c s' in (String x before, after)
  end.

(** One iteration of [for header in args.headers]. *)
Definition add_header (headers : list (string * string)) (header : string)
    : list (string * string) :=
  if contains ":" header then
    let (key, value) := split_once ":" header in
    dict_set (str_strip key) (str_strip value) headers
  else headers.

(** The headers [main] builds from [args.headers], which is [None] when no
    [--header] option is given. *)
Definition parse_headers (args_headers : option (list string)) : list (string * string) :=
  match args_headers with
  | Some headers => fold_left add_header headers []
  | None => []
  end.

(** [s.replace(a, b)] for one-character [a] and [b]. *)
Fixpoint replace (a b : ascii) (s : string) : string :=
  match s with
  | EmptyString => EmptyString
  | String c s' => String (if Ascii.eqb c a then b else c) (replace a b s')
  end.

(** The name of the cache file inside [~/.jsondiff_cache], from the
    [netloc] that [urlparse] finds in the URL. *)
Definition storage_name (netloc : string) : string :=
  replace "." "_" netloc +:+ ".json".

(** ** Notions used to state the properties of the filters *)

(** [r] is [v] or a value found inside [v]. *)
Inductive subvalue (r : json) : json -> Prop :=
| subvalue_self : subvalue r r
| subvalue_item items x : x ∈ items -> subvalue r x -> subvalue r (JArray items)
| subvalue_field fields k v : (k, v) ∈ fields -> subvalue r v -> subvalue r (JObject fields).

(** Some object of [data], at any depth, holds [key] with a value that
    matches. *)
Fixpoint occurs (key : string) (value : option string) (data : json) : bool :=
  match data with
  | JObject fields =>
      match dict_get key fields with
      | Some v => value_matches value v
      | None => false
      end
      || existsb (fun kv => occurs key value (snd kv)) fields
  | JArray items => existsb (occurs key value) items
  | _ => false
  end.

(** The shape of what the recursive search returns: objects and lists that
    are not empty, down to objects [{key: v}] whose [v] matches. *)
#[warnings="-register-all"]
Inductive found_shape (key : string) (value : option string) : json -> Prop :=
| shape_hit v : value_matches value v = true -> found_shape key value (JObject [(key, v)])
| shape_object fields :
    fields <> [] -> Forall (fun kv => found_shape key value (snd kv)) fields ->
    found_shape key value (JObject fields)
| shape_list items :
    items <> [] -> Forall (found_shape key value) items ->
    found_shape key value (JArray items).

(** A part of a path with no key in front of a bracket. *)
Definition unkeyed (part : string) : bool :=
  match index "[" part with
  | Some lb => (lb =? 0)%nat
  | None => true
  end.

(** The ticks that get past [if current_data is None]. *)
Definition effective (t : fetch_outcome * write_outcome) : bool :=
  negb (is_None (fetched_document (fst t))).

Definition write_succeeds (t : fetch_outcome * write_outcome) : bool :=
  match snd t with Written => true | _ => false end.

(** The ticks whose request failed: [fetch_json] prints an error line. *)
Definition request_failed (t : fetch_outcome * write_outcome) : bool :=
  match fst t with Fetched _ => false | _ => true end.

(** The three kinds of thing a tick shows. *)
Definition is_panel (s : shown) : bool :=
  match s with InitialData _ | Compared _ _ => true | _ => false end.

Definition is_fetch_error (s : shown) : bool :=
  match s with ErrorFetching _ | ErrorParsing _ => true | _ => false end.

Definition is_save_warning (s : shown) : bool :=
  match s with SaveWarning _ => true | _ => false end.

(** The report of one changed value at the root, as [DeepDiff] writes it
    with [verbose_level=2]. *)
Definition root_changed (previous current : json) : DeepDiff :=
  {| dictionary_item_added := None; dictionary_item_removed := None;
     values_changed := Some [("root", [("new_value", current); ("old_value", previous)])];
     iterable_item_added := None; iterable_item_removed := None; other_reports := [] |}.

Definition no_report : DeepDiff :=
  {| dictionary_item_added := None; dictionary_item_removed := None; values_changed := None;
     iterable_item_added := None; iterable_item_removed := None; other_reports := [] |}.

(** A setting for the examples: the side-by-side comparison is shown,
    every text is read, a document is written as its [repr], and two
    documents that differ are reported as one changed value at the root. *)
Definition example_display : Display :=
  {| show_only_diffs := false;
     deep_diff := fun previous current =>
       if structurally_identical previous current then no_report
       else root_changed previous current;
     json_dumps := repr;
     markup := fun _ => true |}.

(** Modelled from the spec: what section 4.4 asks at one index of two
    arrays, [p] and [c] being what the arrays hold there: both compared
    below [path[index]], the one only in [previous] a [list_removed] entry,
    the one only in [current] a [list_added] entry. *)
Definition entry_at (path : string) (i : nat) (p c : option json) : DiffResult :=
  match p, c with
  | Some p, Some c => diff_at (index_path path i) p c
  | Some p, None => list_removed_at (index_path path i) p
  | None, Some c => list_added_at (index_path path i) c
  | None, None => no_diff
  end.

Definition at_index (path : string) (ps cs : list json) (i : nat) : DiffResult :=
  entry_at path i (ps !! i) (cs !! i).


(** What the search does on one value: it finds something of the right
    shape when the key occurs with a matching value, and nothing
    otherwise. *)
Definition search_settled (key : string) (value : option string) (data : json) : Prop :=
  let r := _find_and_filter_key data key value in
  if occurs key value data then truthy r = true /\ found_shape key value r
  else r = JNull.

(** The number of lines of a report: a heading, its entries, an empty
    line. *)
Definition section_size {A : Type} (report : option (list (string * A))) (per_entry : nat) : nat :=
  match report with
  | Some entries => 2 + per_entry * length entries
  | None => 0
  end.

(** A header whose name and value have no white space at either end. *)
Definition stripped (kv : string * string) : Prop :=
  str_strip (fst kv) = fst kv /\ str_strip (snd kv) = snd kv.

(** ** Notions used in the proofs *)

(** A text is free of the characters [stop]; a text ends or goes on with
    a [stop] character. *)
Section Stops.
Variable stop : ascii -> bool.

Fixpoint stop_free (k : string) : bool :=
  match k with
  | EmptyString => true
  | String c k' => negb (stop c) && stop_free k'
  end.

Definition at_stop (s : string) : Prop :=
  match s with
  | EmptyString => True
  | String c _ => stop c = true
  end.
End Stops.

Definition is_sep (c : ascii) : bool := Ascii.eqb c "." || Ascii.eqb c "[".
Definition is_close (c : ascii) : bool := Ascii.eqb c "]".

(** [below p q]: the path [q] is [p] or lies under it.  Every path lies
    under the root path. *)
Definition below (p q : string) : Prop :=
  p = "" \/ exists s, q = p +:+ s /\ at_stop is_sep s.

(** What the five buckets of a diff hold at one path. *)
Definition found_at : Type :=
  (option json * option json * option (json * json) * option json * option json)%type.

Definition lookups (d : DiffResult) (q : string) : found_at :=
  (added d !! q, removed d !! q, changed d !! q, list_added d !! q, list_removed d !! q).

Definition nothing : found_at := (None, None, None, None, None).

(** A comparison that leaves nothing outside the paths under its own. *)
Definition local_compare (compare : string -> json -> json -> DiffResult) (v : json) : Prop :=
  forall path c q, ~ below path q -> lookups (compare path v c) q = nothing.

(** The values on which applying the diff gives back the second operand,
    whatever lies in the diff outside the paths under the value's own. *)
Definition restores (a : json) : Prop :=
  forall path b d,
    wf_json a -> wf_json b -> good_keys a -> good_keys b ->
    (forall q, below path q -> lookups d q = lookups (diff_at path a b) q) ->
    structurally_identical (apply_at d path a) b = true.

(** * Proofs *)

(** ** Strings: [in], [index], slices and [split] *)

Lemma append_empty s : "" +:+ s = s.
Proof. reflexivity. Qed.

Lemma append_cons x s t : String x s +:+ t = String x (s +:+ t).
Proof. reflexivity. Qed.

Lemma append_assoc s t u : (s +:+ t) +:+ u = s +:+ t +:+ u.
Proof. induction s as [|x s IH]; [reflexivity |]. now rewrite !append_cons, IH. Qed.

Lemma length_append s t : String.length (s +:+ t) = (String.length s + String.length t)%nat.
Proof. induction s as [|x s IH]; [reflexivity |]. rewrite append_cons. simpl. now rewrite IH. Qed.

Lemma contains_index c s : contains c s = true <-> is_Some (index c s).
Proof.
  induction s as [|x s IH]; simpl.
  - split; [discriminate | intros [? ?]; discriminate].
  - destruct (Ascii.eqb x c); simpl; [split; eauto |].
    rewrite IH. destruct (index c s); simpl; split; intros [? ?]; eauto; discriminate.
Qed.

Lemma index_append c key rest :
  contains c key = false ->
  index c (key +:+ String c rest) = Some (String.length key).
Proof.
  induction key as [|x key IH]; intros H.
  - rewrite append_empty. simpl. now rewrite Ascii.eqb_refl.
  - simpl in H. apply orb_false_iff in H as [Hx Hk].
    rewrite append_cons. simpl. rewrite Hx, (IH Hk). reflexivity.
Qed.

Lemma index_append_skip c key rest :
  contains c key = false ->
  index c (key +:+ rest) = option_map (Nat.add (String.length key)) (index c rest).
Proof.
  induction key as [|x key IH]; intros H.
  - rewrite append_empty. destruct (index c rest); reflexivity.
  - simpl in H. apply orb_false_iff in H as [Hx Hk].
    rewrite append_cons. simpl. rewrite Hx, (IH Hk).
    destruct (index c rest); reflexivity.
Qed.

Lemma substring_append_skip key m rest :
  substring (String.length key) m (key +:+ rest) = substring 0 m rest.
Proof. induction key as [|x key IH]; [reflexivity | rewrite append_cons; exact IH]. Qed.

Lemma substring_prefix key rest :
  substring 0 (String.length key) (key +:+ rest) = key.
Proof.
  induction key as [|x key IH].
  - rewrite append_empty. now destruct rest.
  - rewrite append_cons. simpl. now rewrite IH.
Qed.

Lemma split_no_sep c part : contains c part = false -> split c part = [part].
Proof.
  induction part as [|x part IH]; simpl; [reflexivity |].
  intros H. apply orb_false_iff in H as [Hx Hp]. rewrite Hx, (IH Hp). reflexivity.
Qed.

Lemma split_first c part rest :
  contains c part = false ->
  split c (part +:+ String c rest) = part :: split c rest.
Proof.
  induction part as [|x part IH]; intros H.
  - rewrite append_empty. simpl. now rewrite Ascii.eqb_refl.
  - simpl in H. apply orb_false_iff in H as [Hx Hp].
    rewrite append_cons. simpl. rewrite Hx, (IH Hp). reflexivity.
Qed.

(** ** The path filter *)

(** A segment [key[text]] splits into its key and its index text. *)
Lemma path_part_bracketed result key text :
  contains "[" key = false -> contains "]" key = false -> contains "]" text = false ->
  path_part result (key +:+ "[" +:+ text +:+ "]") =
    (do result <- (if truthy_str key then get_or_empty result key else Val result);
     if String.eqb text "*" then
       match result with
       | JArray _ => Val (Next result)
       | _ => Val (Return (JObject []))
       end
     else
       match int text with
       | Some idx =>
           match result with
           | JArray items =>
               if (0 <=? idx) && (idx <? Z.of_nat (length items)) then
                 match items !! Z.to_nat idx with
                 | Some x => Val (Next x)
                 | None => Val (Return (JObject []))
                 end
               else Val (Return (JObject []))
           | _ => Val (Return (JObject []))
           end
       | None => Val (Return (JObject []))
       end).
Proof.
  intros Hk1 Hk2 Ht. unfold path_part.
  change (key +:+ "[" +:+ text +:+ "]") with (key +:+ String "[" (text +:+ String "]" "")).
  rewrite (index_append "[" key _ Hk1).
  rewrite (index_append_skip "]" key _ Hk2).
  simpl index. rewrite (index_append "]" text "" Ht). simpl option_map.
  unfold slice.
  rewrite Nat.sub_0_r, substring_prefix.
  change (key +:+ String "[" (text +:+ String "]" ""))
    with (key +:+ "[" +:+ text +:+ "]").
  rewrite <- (append_assoc key "[").
  replace (String.length key + 1)%nat with (String.length (key +:+ "["))
    by (rewrite length_append; reflexivity).
  rewrite substring_append_skip.
  replace (String.length key + S (String.length text) - String.length (key +:+ "["))%nat
    with (String.length text) by (rewrite length_append; simpl; lia).
  rewrite substring_prefix. reflexivity.
Qed.

Lemma int_star : int "*" = None.
Proof. reflexivity. Qed.

(** The only way a segment raises: a keyed index segment on a current
    result that is not a [dict]. *)
Lemma path_part_raises result part e :
  path_part result part = Raise e ->
  (forall fields, result <> JObject fields) /\
  exists lb rb, index "[" part = Some lb /\ index "]" part = Some rb /\
                truthy_str (slice 0 lb part) = true.
Proof.
  unfold path_part.
  destruct (index "[" part) as [lb|], (index "]" part) as [rb|];
    try (destruct result; discriminate).
  destruct (truthy_str (slice 0 lb part)) eqn:Hkey.
  - destruct result; simpl; try (intros _; split; [congruence | eauto 6]).
    intros H. exfalso. revert H.
    repeat match goal with
           | |- context [match ?x with _ => _ end] => destruct x
           end; discriminate.
  - simpl. intros H. exfalso. revert H.
    repeat match goal with
           | |- context [match ?x with _ => _ end] => destruct x
           end; discriminate.
Qed.

(** C2: the path filter is claimed never to raise.  A segment with a key
    and an index calls [result.get] without the [isinstance(result, dict)]
    test the plain field branch makes, so on a document whose current
    result is a list the call raises [AttributeError], with a numeric index
    and with malformed index text alike. *)
Theorem path_filter_keyed_index_raises :
  _apply_path_filter (JArray [JNumber 1]) "items[0]" = Raise AttributeError /\
  _apply_path_filter (JArray [JNumber 1]) "items[abc]" = Raise AttributeError /\
  _apply_path_filter (JObject [("a", JArray [JNumber 1])]) "a[0].b[0]" = Raise AttributeError.
Proof. repeat split; reflexivity. Qed.

(** C5: segments are processed left to right, the first on the root value
    and the rest of the path on what it produced; an index segment whose
    text reads as the integer [idx], once its key (if any) has been looked
    up, selects element [idx] of an array when [0 <= idx < length] and
    otherwise, out of range or not on an array, returns the empty object;
    on [{"a":{"b":[10,20,30]}}] the paths [a.b[1]], [a.b[*]] and [a.x[0]]
    give [20], [[10,20,30]] and [{}]. *)
Theorem path_filter_left_to_right_exact_index :
  (forall data part rest,
      contains "." part = false ->
      _apply_path_filter data (part +:+ "." +:+ rest) =
        (do step <- path_part data part;
         match step with
         | Next result => _apply_path_filter result rest
         | Return r => Val r
         end)) /\
  (forall data part,
      contains "." part = false ->
      _apply_path_filter data part =
        (do step <- path_part data part;
         match step with Next result => Val result | Return r => Val r end)) /\
  (forall result key text idx current,
      contains "[" key = false -> contains "]" key = false -> contains "]" text = false ->
      int text = Some idx ->
      (if truthy_str key then get_or_empty result key else Val result) = Val current ->
      path_part result (key +:+ "[" +:+ text +:+ "]") =
        Val match current with
            | JArray items =>
                if (0 <=? idx) && (idx <? Z.of_nat (length items))
                then Next (nth (Z.to_nat idx) items JNull)
                else Return (JObject [])
            | _ => Return (JObject [])
            end) /\
  (let doc := JObject [("a", JObject [("b", JArray [JNumber 10; JNumber 20; JNumber 30])])] in
   _apply_path_filter doc "a.b[1]" = Val (JNumber 20) /\
   _apply_path_filter doc "a.b[*]" = Val (JArray [JNumber 10; JNumber 20; JNumber 30]) /\
   _apply_path_filter doc "a.x[0]" = Val (JObject [])).
Proof.
  split; [| split; [| split]].
  - intros data part rest Hpart. unfold _apply_path_filter.
    change (part +:+ "." +:+ rest) with (part +:+ String "." rest).
    rewrite (split_first "." part rest Hpart). reflexivity.
  - intros data part Hpart. unfold _apply_path_filter.
    rewrite (split_no_sep "." part Hpart). simpl.
    destruct (path_part data part) as [[r|r]|e]; reflexivity.
  - intros result key text idx current Hk1 Hk2 Ht Hint Hcur.
    rewrite (path_part_bracketed result key text Hk1 Hk2 Ht), Hcur. simpl.
    destruct (String.eqb_spec text "*") as [->|_]; [rewrite int_star in Hint; discriminate |].
    rewrite Hint. destruct current; try reflexivity.
    destruct ((0 <=? idx) && (idx <? Z.of_nat (length items))) eqn:Hrange; [| reflexivity].
    apply andb_true_iff in Hrange as [H0 Hlen]. apply Z.leb_le in H0. apply Z.ltb_lt in Hlen.
    destruct (nth_lookup_or_length items (Z.to_nat idx) JNull) as [->|Hge]; [reflexivity | lia].
  - repeat split; reflexivity.
Qed.

Lemma path_filter_left_to_right_exact_index_witness :
  let doc := JObject [("a", JObject [("b", JArray [JNumber 10; JNumber 20; JNumber 30])])] in
  _apply_path_filter doc ("a" +:+ "." +:+ "b[1]") =
    (do step <- path_part doc "a";
     match step with
     | Next result => _apply_path_filter result "b[1]"
     | Return r => Val r
     end) /\
  _apply_path_filter doc "a" =
    (do step <- path_part doc "a";
     match step with Next result => Val result | Return r => Val r end) /\
  path_part (JArray [JNumber 10; JNumber 20; JNumber 30]) ("" +:+ "[" +:+ "1" +:+ "]") =
    Val (Next (JNumber 20)).
Proof.
  intros doc. split; [| split].
  - exact (proj1 path_filter_left_to_right_exact_index doc "a" "b[1]" eq_refl).
  - exact (proj1 (proj2 path_filter_left_to_right_exact_index) doc "a" eq_refl).
  - exact (proj1 (proj2 (proj2 path_filter_left_to_right_exact_index))
             (JArray [JNumber 10; JNumber 20; JNumber 30]) "" "1" 1
             (JArray [JNumber 10; JNumber 20; JNumber 30])
             eq_refl eq_refl eq_refl eq_refl eq_refl).
Defined.

(** ** The key filter on a list *)

Lemma keep_item_loop key value items acc :
  fold_left (keep_item key value) items acc = acc ++ List.filter (retained key value) items.
Proof.
  revert acc. induction items as [|item items IH]; intros acc; simpl.
  - now rewrite app_nil_r.
  - rewrite IH. unfold keep_item, retained.
    destruct item as [| | | | |fields]; try reflexivity.
    destruct (dict_get key fields) as [v|]; [| reflexivity].
    destruct (value_matches value v); [| reflexivity].
    now rewrite <- app_assoc.
Qed.

(** C6: with a key configured, the key filter turns an array into the
    array of exactly those elements that are objects containing the key
    whose stringified value equals the match value (when one is given), in
    their original order and unchanged; the documented example keeps the
    one [active] element. *)
Theorem key_filter_array_retains_matching (w : JSONDiffWatcher) (key : string)
    (items : list json) :
  filter_key w = Some key -> truthy_str key = true ->
  key_filter w (JArray items) = JArray (List.filter (retained key (filter_value w)) items) /\
  (truthy_opt (filter_path w) = false ->
   filter_json w (JArray items) =
     Val (JArray (List.filter (retained key (filter_value w)) items))) /\
  filter_json {| filter_path := None; filter_key := Some "s"; filter_value := Some "active" |}
    (JArray [JObject [("id", JNumber 1); ("s", JString "active")];
             JObject [("id", JNumber 2); ("s", JString "off")]])
  = Val (JArray [JObject [("id", JNumber 1); ("s", JString "active")]]).
Proof.
  intros Hkey Htruthy.
  assert (Hk : key_filter w (JArray items) =
               JArray (List.filter (retained key (filter_value w)) items)).
  { unfold key_filter. rewrite Hkey, Htruthy, keep_item_loop. reflexivity. }
  split; [exact Hk | split; [| reflexivity]].
  intros Hpath. unfold filter_json.
  rewrite Hpath. unfold truthy_opt at 1. rewrite Hkey, Htruthy. simpl.
  destruct (filter_path w) as [path|]; simpl in *; [rewrite Hpath |]; simpl; now rewrite Hk.
Qed.

Lemma key_filter_array_retains_matching_witness :
  key_filter {| filter_path := None; filter_key := Some "s"; filter_value := None |}
    (JArray [JNumber 7; JObject [("s", JNull)]; JObject [("t", JNull)]])
  = JArray [JObject [("s", JNull)]].
Proof.
  exact (proj1 (key_filter_array_retains_matching
                  {| filter_path := None; filter_key := Some "s"; filter_value := None |}
                  "s" [JNumber 7; JObject [("s", JNull)]; JObject [("t", JNull)]]
                  eq_refl eq_refl)).
Defined.

(** ** The recursive search *)

Lemma dict_set_fresh {A : Type} k (v : A) d :
  k ∉ map fst d -> dict_set k v d = d ++ [(k, v)].
Proof.
  induction d as [|[k' v'] d IH]; simpl; [reflexivity |].
  intros Hk. apply not_elem_of_cons in Hk as [Hne Hk].
  destruct (String.eqb_spec k' k) as [->|_]; [congruence |].
  now rewrite (IH Hk).
Qed.

Lemma items_loop_nodup search todo acc :
  NoDup (map fst acc ++ map fst todo) ->
  items_loop search todo acc = acc ++ omap (found_field search) todo.
Proof.
  revert acc. induction todo as [|[k v] todo IH]; intros acc Hnd; simpl.
  - now rewrite app_nil_r.
  - unfold found_field at 1. simpl.
    apply NoDup_app in Hnd as (Hacc & Hdisj & Htodo).
    apply NoDup_cons in Htodo as [Hk Htodo].
    destruct (truthy (search v)).
    + rewrite dict_set_fresh by (intros Hin; apply (Hdisj k Hin); simpl; apply list_elem_of_here).
      rewrite IH.
      * now rewrite <- app_assoc.
      * rewrite map_app. simpl. rewrite <- app_assoc. simpl.
        apply NoDup_app. repeat split; [exact Hacc | | now apply NoDup_cons].
        intros x Hx. apply Hdisj. exact Hx.
    + apply IH. apply NoDup_app. repeat split; [exact Hacc | | exact Htodo].
      intros x Hx Hin. apply (Hdisj x Hx). simpl. now apply list_elem_of_further.
Qed.

Lemma item_loop_omap search todo acc :
  item_loop search todo acc = acc ++ omap (found_item search) todo.
Proof.
  revert acc. induction todo as [|item todo IH]; intros acc; simpl.
  - now rewrite app_nil_r.
  - rewrite IH. unfold found_item at 2.
    destruct (truthy (search item)); [now rewrite <- app_assoc | reflexivity].
Qed.

(** C3 as the code has it: an object that holds the key with a matching
    value (or with no match value given) yields the singleton; one that
    holds the key with a value that does not match is searched like an
    object without the key: every child is searched in turn and the object
    yields the children found, or [None] when there is none.  A list yields
    the results found for its elements, or [None].  Only the object that
    [filter_json] itself receives becomes the empty object on a
    mismatch. *)
Theorem find_key_searches_below_mismatch (fields : list (string * json)) (key : string)
    (value : option string) :
  NoDup (map fst fields) ->
  let search := fun v => _find_and_filter_key v key value in
  let rebuilt :=
    match omap (found_field search) fields with
    | [] => JNull
    | found => JObject found
    end in
  _find_and_filter_key (JObject fields) key value =
    match dict_get key fields with
    | Some v => if value_matches value v then JObject [(key, v)] else rebuilt
    | None => rebuilt
    end /\
  (forall items,
      _find_and_filter_key (JArray items) key value =
        match omap (found_item search) items with
        | [] => JNull
        | found => JArray found
        end) /\
  (forall w v,
      filter_key w = Some key -> truthy_str key = true -> filter_value w = value ->
      dict_get key fields = Some v -> value_matches value v = false ->
      key_filter w (JObject fields) = JObject []).
Proof.
  intros Hnd search rebuilt. split; [| split].
  - assert (Hloop : (let result := items_loop search fields [] in
                     if truthy (JObject result) then JObject result else JNull) = rebuilt).
    { simpl. rewrite items_loop_nodup by exact Hnd. simpl. subst rebuilt.
      destruct (omap (found_field search) fields); reflexivity. }
    simpl. destruct (dict_get key fields) as [v|]; [| exact Hloop].
    destruct (value_matches value v); [reflexivity | exact Hloop].
  - intros items. simpl. rewrite item_loop_omap. simpl. subst search.
    destruct (omap _ items); reflexivity.
  - intros w v Hkey Htruthy Hvalue Hget Hno. unfold key_filter.
    now rewrite Hkey, Htruthy, Hget, Hvalue, Hno.
Qed.

Lemma find_key_searches_below_mismatch_witness :
  _find_and_filter_key
    (JObject [("s", JString "off"); ("y", JObject [("s", JString "active")])])
    "s" (Some "active")
  = JObject [("y", JObject [("s", JString "active")])].
Proof.
  refine (proj1 (find_key_searches_below_mismatch
                   [("s", JString "off"); ("y", JObject [("s", JString "active")])]
                   "s" (Some "active") _)).
  apply (bool_decide_unpack _). vm_compute. exact I.
Defined.

(** C3 as stated fails: below an object without the key, a nested object
    that holds the key with a value that does not match still contributes
    what the search finds in its own descendants. *)
Lemma find_key_mismatch_not_dropped :
  key_filter {| filter_path := None; filter_key := Some "s"; filter_value := Some "active" |}
    (JObject [("x", JObject [("s", JString "off"); ("y", JObject [("s", JString "active")])])])
  = JObject [("x", JObject [("y", JObject [("s", JString "active")])])] /\
  _find_and_filter_key
    (JObject [("s", JString "off"); ("y", JObject [("s", JString "active")])])
    "s" (Some "active")
  <> JObject [].
Proof. split; [reflexivity | discriminate]. Qed.

(** C4 as the code has it: the recursive search returns [None] on every
    scalar, whereas the key filter of [filter_json] leaves a scalar as it
    is; with a key configured and no path, [filter_json] returns the scalar
    unchanged. *)
Theorem scalar_absent_in_search_unchanged_at_top (w : JSONDiffWatcher) (v : json)
    (key : string) (value : option string) :
  is_scalar v = true ->
  _find_and_filter_key v key value = JNull /\
  key_filter w v = v /\
  (truthy_opt (filter_path w) = false -> filter_json w v = Val v).
Proof.
  intros Hv.
  assert (Hk : key_filter w v = v).
  { unfold key_filter. destruct (filter_key w) as [k|]; [| reflexivity].
    destruct (truthy_str k); [| reflexivity]. destruct v; try reflexivity; discriminate. }
  split; [destruct v; try reflexivity; discriminate | split; [exact Hk |]].
  intros Hpath. unfold filter_json. rewrite Hpath.
  destruct (truthy_opt (filter_key w)); simpl; [| reflexivity].
  destruct (filter_path w) as [path|]; simpl in *; [rewrite Hpath |]; simpl; now rewrite Hk.
Qed.

Lemma scalar_absent_in_search_unchanged_at_top_witness :
  filter_json {| filter_path := None; filter_key := Some "id"; filter_value := None |}
    (JString "text") = Val (JString "text").
Proof.
  exact (proj2 (proj2 (scalar_absent_in_search_unchanged_at_top
                         {| filter_path := None; filter_key := Some "id"; filter_value := None |}
                         (JString "text") "id" None eq_refl)) eq_refl).
Defined.

(** C4 as stated fails: with a key filter configured, [filter_json] hands
    back the number 5 itself, which is not the absent value. *)
Lemma scalar_returned_unchanged :
  filter_json {| filter_path := None; filter_key := Some "id"; filter_value := Some "1" |}
    (JNumber 5) = Val (JNumber 5) /\
  JNumber 5 <> JNull.
Proof. split; [reflexivity | discriminate]. Qed.

(** C10: the match value is compared with Python's [str] of the stored
    value: [True], [None] and [1] for JSON's [true], [null] and [1]; so the
    JSON texts [true] and [null] do not match where [True] and [None] do,
    in the list branch, in the object branch and in the recursive search. *)
Theorem match_value_is_python_str (key : string) :
  str (JBool true) = "True" /\ str (JBool false) = "False" /\ str JNull = "None" /\
  str (JNumber 1) = "1" /\
  value_matches (Some "True") (JBool true) = true /\
  value_matches (Some "true") (JBool true) = false /\
  value_matches (Some "None") JNull = true /\
  value_matches (Some "null") JNull = false /\
  value_matches (Some "1") (JNumber 1) = true /\
  keep_item key (Some "true") [] (JObject [(key, JBool true)]) = [] /\
  keep_item key (Some "True") [] (JObject [(key, JBool true)]) = [JObject [(key, JBool true)]] /\
  _find_and_filter_key (JObject [(key, JNull)]) key (Some "null") = JNull /\
  _find_and_filter_key (JObject [(key, JNull)]) key (Some "None") = JObject [(key, JNull)] /\
  (let w := fun text => {| filter_path := None; filter_key := Some "ok"; filter_value := Some text |} in
   filter_json (w "true") (JObject [("ok", JBool true)]) = Val (JObject []) /\
   filter_json (w "True") (JObject [("ok", JBool true)]) = Val (JObject [("ok", JBool true)]) /\
   filter_json (w "1") (JArray [JObject [("ok", JNumber 1)]]) = Val (JArray [JObject [("ok", JNumber 1)]])).
Proof.
  repeat split; try reflexivity.
  - unfold keep_item. simpl. now rewrite String.eqb_refl.
  - unfold keep_item. simpl. now rewrite String.eqb_refl.
  - simpl. rewrite String.eqb_refl. simpl. reflexivity.
  - simpl. rewrite String.eqb_refl. simpl. reflexivity.
Qed.

(** ** The watch loop *)

Lemma save_previous_file `{Display} data written file file' warnings :
  save_previous data written file = Val (file', warnings) ->
  Forall (fun s => is_save_warning s = true) warnings /\
  (written = Written -> file' = FileWith data /\ warnings = []) /\
  (written <> Written -> length warnings = 1%nat).
Proof.
  unfold save_previous, console_print. destruct written as [|e|e].
  - intros Heq. injection Heq as <- <-. repeat split; [constructor | congruence].
  - destruct (markup _); [| discriminate]. simpl. intros Heq. injection Heq as <- <-.
    repeat split; try discriminate. now repeat constructor.
  - destruct (markup _); [| discriminate]. simpl. intros Heq. injection Heq as <- <-.
    repeat split; try discriminate. now repeat constructor.
Qed.

Lemma display_diff_panel `{Display} w current previous out :
  display_diff w current previous = Val out ->
  display_diff_filtered w current previous = Val out /\ is_panel out = true.
Proof.
  unfold display_diff.
  destruct (display_diff_filtered w current previous) as [filtered|e] eqn:Hf; [| discriminate].
  simpl. unfold display_diff_filtered in Hf.
  destruct (filter_json w current) as [cf|e]; [| discriminate]. simpl in Hf.
  destruct (if truthy previous then _ else _) as [pf|e]; [| discriminate]. simpl in Hf.
  destruct (is_None pf); injection Hf as <-.
  - intros Heq. injection Heq as <-. auto.
  - destruct (print_all _); [| discriminate]. simpl. intros Heq. injection Heq as <-. auto.
Qed.

(** A tick whose request left a document: what [display_diff] and
    [save_previous] returned, and the new state. *)
Lemma tick_fetched `{Display} w st raw written st' outs :
  is_None raw = false ->
  tick w st (Fetched raw) written = Val (st', outs) ->
  exists out warnings,
    display_diff w raw (if is_None (previous_data st) then JNull else previous_data st) = Val out /\
    save_previous raw written (storage_file st) = Val (storage_file st', warnings) /\
    previous_data st' = raw /\ outs = out :: warnings.
Proof.
  intros Hraw. unfold tick. simpl. rewrite Hraw.
  destruct (is_None (previous_data st)); simpl.
  - destruct (display_diff w raw JNull) as [out|e]; [| discriminate]. simpl.
    destruct (save_previous raw written (storage_file st)) as [[file' warnings]|e];
      [| discriminate].
    simpl. intros Heq. injection Heq as <- <-. simpl. eauto 6.
  - destruct (display_diff w raw (previous_data st)) as [out|e]; [| discriminate]. simpl.
    destruct (save_previous raw written (storage_file st)) as [[file' warnings]|e];
      [| discriminate].
    simpl. intros Heq. injection Heq as <- <-. simpl. eauto 6.
Qed.

(** A tick whose request left [None]: nothing changes, and only an error
    line is shown. *)
Lemma tick_skipped `{Display} w st fetched written st' outs :
  effective (fetched, written) = false ->
  tick w st fetched written = Val (st', outs) ->
  st' = st /\ Forall (fun s => is_fetch_error s = true) outs /\
  length outs = (if request_failed (fetched, written) then 1 else 0)%nat.
Proof.
  unfold effective, tick, request_failed. simpl. intros Hskip.
  apply negb_false_iff in Hskip. destruct fetched as [e|e|body]; simpl in *.
  - unfold console_print. destruct (markup _); [| discriminate]. simpl.
    intros Heq. injection Heq as <- <-. repeat split. now repeat constructor.
  - unfold console_print. destruct (markup _); [| discriminate]. simpl.
    intros Heq. injection Heq as <- <-. repeat split. now repeat constructor.
  - rewrite Hskip. intros Heq. injection Heq as <- <-. repeat split. constructor.
Qed.

Lemma effective_fetched fetched written :
  effective (fetched, written) = true ->
  exists raw, fetched = Fetched raw /\ is_None raw = false.
Proof.
  unfold effective. simpl. intros Heff. apply negb_true_iff in Heff.
  destruct fetched as [e|e|body]; try discriminate. eauto.
Qed.





(** ** The diff engine: emptiness *)

Lemma union_empty_iff {A : Type} (m1 m2 : gmap string A) :
  m1 ∪ m2 = ∅ <-> m1 = ∅ /\ m2 = ∅.
Proof.
  split.
  - intros H. pose proof (map_positive_l _ _ H) as H1. subst m1.
    rewrite (left_id_L ∅ (∪)) in H. auto.
  - intros [-> ->]. apply (left_id_L ∅ (∪)).
Qed.

Lemma merge_no_diff d1 d2 : merge d1 d2 = no_diff <-> d1 = no_diff /\ d2 = no_diff.
Proof.
  destruct d1 as [a1 r1 c1 la1 lr1], d2 as [a2 r2 c2 la2 lr2].
  unfold merge, no_diff. simpl. split.
  - intros H.
    pose proof (f_equal added H) as Ha. pose proof (f_equal removed H) as Hr.
    pose proof (f_equal changed H) as Hc. pose proof (f_equal list_added H) as Hla.
    pose proof (f_equal list_removed H) as Hlr. simpl in *.
    apply union_empty_iff in Ha as [-> ->], Hr as [-> ->], Hc as [-> ->],
      Hla as [-> ->], Hlr as [-> ->]. auto.
  - intros [H1 H2].
    pose proof (f_equal added H1) as Ha1. pose proof (f_equal removed H1) as Hr1.
    pose proof (f_equal changed H1) as Hc1. pose proof (f_equal list_added H1) as Hla1.
    pose proof (f_equal list_removed H1) as Hlr1.
    pose proof (f_equal added H2) as Ha2. pose proof (f_equal removed H2) as Hr2.
    pose proof (f_equal changed H2) as Hc2. pose proof (f_equal list_added H2) as Hla2.
    pose proof (f_equal list_removed H2) as Hlr2. simpl in *. subst.
    now rewrite !(left_id_L ∅ (∪)).
Qed.

Lemma added_at_not_empty path v : added_at path v <> no_diff.
Proof. intros H. apply (f_equal added) in H. exact (map_non_empty_singleton _ _ H). Qed.

Lemma removed_at_not_empty path v : removed_at path v <> no_diff.
Proof. intros H. apply (f_equal removed) in H. exact (map_non_empty_singleton _ _ H). Qed.

Lemma changed_at_not_empty path old new : changed_at path old new <> no_diff.
Proof. intros H. apply (f_equal changed) in H. exact (map_non_empty_singleton _ _ H). Qed.

Lemma list_added_at_not_empty path v : list_added_at path v <> no_diff.
Proof. intros H. apply (f_equal list_added) in H. exact (map_non_empty_singleton _ _ H). Qed.

Lemma list_removed_at_not_empty path v : list_removed_at path v <> no_diff.
Proof. intros H. apply (f_equal list_removed) in H. exact (map_non_empty_singleton _ _ H). Qed.

Lemma only_in_current_empty path pf cf :
  only_in_current path pf cf = no_diff <-> forallb (has_key pf) (map fst cf) = true.
Proof.
  induction cf as [|[k v] cf IH]; simpl; [tauto |].
  rewrite merge_no_diff, IH, andb_true_iff. unfold has_key at 2.
  destruct (dict_get k pf); [tauto |].
  split; [intros [H _]; destruct (added_at_not_empty _ _ H) | intros [H _]; discriminate].
Qed.

Lemma beyond_previous_empty path i cs : beyond_previous path i cs = no_diff <-> cs = [].
Proof.
  destruct cs as [|c cs]; simpl; [tauto |].
  rewrite merge_no_diff.
  split; [intros [H _]; destruct (list_added_at_not_empty _ _ H) | discriminate].
Qed.

Lemma in_previous_empty compare same path cf todo :
  Forall (fun kv => forall path c, compare path (snd kv) c = no_diff <-> same (snd kv) c = true)
         todo ->
  in_previous compare path cf todo = no_diff <-> each_key same cf todo = true.
Proof.
  induction 1 as [|[k v] todo Hv _ IH]; simpl; [tauto |].
  rewrite merge_no_diff, IH, andb_true_iff.
  destruct (dict_get k cf) as [v'|].
  - now rewrite (Hv (key_path path k) v').
  - split; [intros [H _]; destruct (removed_at_not_empty _ _ H) | intros [H _]; discriminate].
Qed.

Lemma by_index_empty compare path ps : forall i cs,
  Forall (fun p => forall path c,
            compare path p c = no_diff <-> structurally_identical p c = true) ps ->
  by_index compare path i ps cs = no_diff <-> pointwise structurally_identical ps cs = true.
Proof.
  induction ps as [|p ps IH]; intros i cs Hps.
  - simpl. rewrite beyond_previous_empty. destruct cs; split; congruence.
  - apply Forall_cons in Hps as [Hp Hps]. destruct cs as [|c cs]; simpl.
    + rewrite merge_no_diff.
      split; [intros [H _]; destruct (list_removed_at_not_empty _ _ H) | discriminate].
    + rewrite merge_no_diff, (IH (S i) cs Hps), andb_true_iff.
      destruct (structurally_identical p c) eqn:Hpc; [tauto |].
      rewrite (Hp (index_path path i) c), Hpc. tauto.
Qed.

Lemma scalar_case path previous current :
  (if scalar_eq previous current then no_diff else changed_at path previous current) = no_diff
  <-> scalar_eq previous current = true.
Proof.
  destruct (scalar_eq previous current); [tauto |].
  split; [intros H; destruct (changed_at_not_empty _ _ _ H) | discriminate].
Qed.

(** The diff at any path is empty exactly on structurally identical
    values. *)
Lemma diff_at_empty previous : forall path current,
  diff_at path previous current = no_diff <-> structurally_identical previous current = true.
Proof.
  induction previous as [| b | n | s | ps IH | pf IH] using json_ind;
    intros path current;
    try (destruct current; apply scalar_case).
  - destruct current as [| | | | cs |]; try apply scalar_case.
    simpl. now apply by_index_empty.
  - destruct current as [| | | | | cf]; try apply scalar_case.
    simpl. rewrite merge_no_diff, andb_true_iff, only_in_current_empty.
    now rewrite (in_previous_empty diff_at structurally_identical path cf pf IH).
Qed.

Lemma wf_json_array items : wf_json (JArray items) <-> Forall wf_json items.
Proof.
  simpl. induction items as [|x items IH]; simpl.
  - split; [constructor | trivial].
  - rewrite IH, Forall_cons. tauto.
Qed.

Lemma wf_json_object fields :
  wf_json (JObject fields) <->
  NoDup (map fst fields) /\ Forall (fun kv => wf_json (snd kv)) fields.
Proof.
  simpl. apply and_iff_compat_l.
  induction fields as [|kv fields IH]; simpl.
  - split; [constructor | trivial].
  - rewrite IH, Forall_cons. tauto.
Qed.

Lemma dict_get_nodup {A : Type} (d : list (string * A)) k v :
  NoDup (map fst d) -> (k, v) ∈ d -> dict_get k d = Some v.
Proof.
  induction d as [|[k' v'] d IH]; simpl; intros Hnd Hin.
  - inversion Hin.
  - apply NoDup_cons in Hnd as [Hk' Hnd]. apply elem_of_cons in Hin as [Heq|Hin].
    + injection Heq as -> ->. now rewrite String.eqb_refl.
    + destruct (String.eqb_spec k' k) as [->|_]; [| now apply IH].
      exfalso. apply Hk'. apply list_elem_of_fmap. now exists (k, v).
Qed.

Lemma structurally_identical_refl v : wf_json v -> structurally_identical v v = true.
Proof.
  induction v as [| b | n | s | xs IH | fa IH] using json_ind; intros Hwf; simpl.
  - reflexivity.
  - now destruct b.
  - apply Z.eqb_refl.
  - apply String.eqb_refl.
  - apply wf_json_array in Hwf.
    induction IH as [|x xs Hx _ IHxs]; simpl; [reflexivity |].
    apply Forall_cons in Hwf as [Hwx Hwxs]. now rewrite (Hx Hwx), (IHxs Hwxs).
  - apply wf_json_object in Hwf as [Hnd Hwf]. apply andb_true_iff. split.
    + assert (Hall : forall todo, Forall (fun kv => kv ∈ fa) todo ->
                                  each_key structurally_identical fa todo = true);
        [| apply Hall, Forall_forall; auto].
      intros todo Hsub.
      induction todo as [|[k v] todo IHtodo]; simpl; [reflexivity |].
      apply Forall_cons in Hsub as [Hin Hsub].
      rewrite (dict_get_nodup fa k v Hnd Hin), (IHtodo Hsub), andb_true_r.
      rewrite Forall_forall in IH, Hwf. exact (IH _ Hin (Hwf _ Hin)).
    + apply forallb_forall. intros k Hk. apply in_map_iff in Hk as [[k' v] [<- Hin]].
      unfold has_key. simpl. apply list_elem_of_In in Hin.
      now rewrite (dict_get_nodup fa k' v Hnd Hin).
Qed.

(** C1: the diff of a value with itself is empty, and the diff of two
    values is empty exactly when they are structurally identical: same
    type tag, equal scalars, arrays of the same length identical position
    by position, objects with the same keys and identical values under
    each key. *)
Theorem diff_empty_iff_structurally_identical :
  (forall X, wf_json X -> diff X X = no_diff) /\
  (forall previous current,
      diff previous current = no_diff <-> structurally_identical previous current = true).
Proof.
  split.
  - intros X HX. apply diff_at_empty. now apply structurally_identical_refl.
  - intros previous current. apply diff_at_empty.
Qed.

Lemma diff_empty_iff_structurally_identical_witness :
  diff (JObject [("a", JArray [JNumber 1; JNull]); ("b", JString "x")])
       (JObject [("a", JArray [JNumber 1; JNull]); ("b", JString "x")]) = no_diff.
Proof.
  apply (proj1 diff_empty_iff_structurally_identical).
  simpl. repeat split. apply (bool_decide_unpack _). vm_compute. exact I.
Defined.

(** ** Paths as strings *)

Lemma append_empty_r s : s +:+ "" = s.
Proof. induction s as [|x s IH]; [reflexivity |]. now rewrite append_cons, IH. Qed.

Lemma append_cancel p s s' : p +:+ s = p +:+ s' -> s = s'.
Proof.
  induction p as [|x p IH]; [now rewrite !append_empty |].
  rewrite !append_cons. intros H. injection H as H. auto.
Qed.

(** A text free of the characters [stop] is determined by any text that
    continues it with a [stop] character or ends there. *)
Lemma stop_free_unique stop k : forall k' s s',
  stop_free stop k = true -> stop_free stop k' = true ->
  at_stop stop s -> at_stop stop s' ->
  k +:+ s = k' +:+ s' -> k = k'.
Proof.
  induction k as [|c k IH]; intros [|c' k'] s s' Hk Hk' Hs Hs'; simpl in *;
    rewrite ?append_empty, ?append_cons; intros Heq.
  - reflexivity.
  - subst s. simpl in Hs. rewrite Hs in Hk'. discriminate.
  - subst s'. simpl in Hs'. rewrite Hs' in Hk. discriminate.
  - injection Heq as -> Heq.
    apply andb_true_iff in Hk as [_ Hk], Hk' as [_ Hk'].
    now rewrite (IH k' s s' Hk Hk' Hs Hs' Heq).
Qed.

Lemma good_key_sep_free k : good_key k = true -> stop_free is_sep k = true.
Proof.
  unfold good_key. rewrite !andb_true_iff, !negb_true_iff. intros [[_ Hdot] Hbr].
  induction k as [|x k IH]; simpl in *; [reflexivity |].
  apply orb_false_iff in Hdot as [Hx1 Hdot], Hbr as [Hx2 Hbr].
  unfold is_sep at 1. rewrite Hx1, Hx2. simpl. auto.
Qed.

Lemma good_key_not_empty k : good_key k = true -> k <> "".
Proof. intros H ->. discriminate. Qed.

Lemma digits_close_free d : stop_free is_close (NilEmpty.string_of_uint d) = true.
Proof. induction d; simpl; auto. Qed.

Lemma str_nat_close_free i : stop_free is_close (str_nat i) = true.
Proof.
  unfold str_nat, NilZero.string_of_uint.
  destruct (Nat.to_uint i) eqn:E; try (rewrite <- E; apply digits_close_free). reflexivity.
Qed.

Lemma to_uint_not_nil i : Nat.to_uint i <> Decimal.Nil.
Proof.
  rewrite <- (DecimalNat.Unsigned.of_to i) at 1. rewrite DecimalNat.Unsigned.to_of.
  unfold Decimal.unorm. now destruct (Decimal.nzhead (Nat.to_uint i)).
Qed.

Lemma str_nat_inj i j : str_nat i = str_nat j -> i = j.
Proof.
  unfold str_nat. intros H. apply DecimalNat.Unsigned.to_uint_inj.
  pose proof (NilZero.usu _ (to_uint_not_nil i)) as Hi.
  pose proof (NilZero.usu _ (to_uint_not_nil j)) as Hj.
  rewrite H in Hi. congruence.
Qed.

Lemma below_refl p : below p p.
Proof. right. exists "". now rewrite append_empty_r. Qed.

Lemma key_path_not_empty path k : good_key k = true -> key_path path k <> "".
Proof.
  intros Hk. unfold key_path. destruct path as [|c path]; simpl.
  - now apply good_key_not_empty.
  - rewrite append_cons. discriminate.
Qed.

Lemma index_path_not_empty path i : index_path path i <> "".
Proof.
  unfold index_path. destruct path as [|c path].
  - rewrite append_empty. discriminate.
  - rewrite append_cons. discriminate.
Qed.

Lemma below_key_path path k q : below (key_path path k) q -> below path q.
Proof.
  destruct path as [|c path]; [now left |].
  intros [H|[s [-> _]]]; [unfold key_path in H; simpl in H; rewrite append_cons in H; discriminate |].
  right. unfold key_path. simpl. exists ("." +:+ k +:+ s).
  now rewrite !append_assoc.
Qed.

Lemma below_index_path path i q : below (index_path path i) q -> below path q.
Proof.
  intros [H|[s [-> _]]]; [destruct (index_path_not_empty _ _ H) |].
  right. unfold index_path. exists ("[" +:+ str_nat i +:+ "]" +:+ s).
  now rewrite !append_assoc.
Qed.

Lemma below_length p q : p <> "" -> below p q -> (String.length p <= String.length q)%nat.
Proof.
  intros Hp [H|[s [-> _]]]; [contradiction |]. rewrite length_append. lia.
Qed.

Lemma key_path_length path k :
  good_key k = true -> (String.length path < String.length (key_path path k))%nat.
Proof.
  intros Hk. unfold key_path. destruct path as [|c path]; simpl.
  - destruct k; [discriminate | simpl; lia].
  - rewrite append_cons. simpl. rewrite length_append. simpl. lia.
Qed.

Lemma index_path_length path i : (String.length path < String.length (index_path path i))%nat.
Proof. unfold index_path. rewrite length_append. simpl. lia. Qed.

Lemma not_below_key_path path k : good_key k = true -> ~ below (key_path path k) path.
Proof.
  intros Hk H. apply below_length in H; [| now apply key_path_not_empty].
  pose proof (key_path_length path k Hk). lia.
Qed.

Lemma not_below_index_path path i : ~ below (index_path path i) path.
Proof.
  intros H. apply below_length in H; [| apply index_path_not_empty].
  pose proof (index_path_length path i). lia.
Qed.

(** Two keys of one object lead to disjoint sets of paths, and so do two
    positions of one array. *)
Lemma below_key_path_inj path k k' q :
  good_key k = true -> good_key k' = true ->
  below (key_path path k) q -> below (key_path path k') q -> k = k'.
Proof.
  intros Hk Hk' [H|[s [-> Hs]]]; [destruct (key_path_not_empty _ _ Hk H) |].
  intros [H|[s' [Heq Hs']]]; [destruct (key_path_not_empty _ _ Hk' H) |].
  unfold key_path in Heq. destruct (truthy_str path).
  - rewrite !append_assoc in Heq. do 2 apply append_cancel in Heq.
    exact (stop_free_unique is_sep k k' s s' (good_key_sep_free k Hk)
             (good_key_sep_free k' Hk') Hs Hs' Heq).
  - exact (stop_free_unique is_sep k k' s s' (good_key_sep_free k Hk)
             (good_key_sep_free k' Hk') Hs Hs' Heq).
Qed.

Lemma below_index_path_inj path i j q :
  below (index_path path i) q -> below (index_path path j) q -> i = j.
Proof.
  intros [H|[s [-> Hs]]]; [destruct (index_path_not_empty _ _ H) |].
  intros [H|[s' [Heq Hs']]]; [destruct (index_path_not_empty _ _ H) |].
  unfold index_path in Heq. rewrite !append_assoc in Heq.
  do 2 apply append_cancel in Heq. apply str_nat_inj.
  refine (stop_free_unique is_close _ _ ("]" +:+ s) ("]" +:+ s')
            (str_nat_close_free i) (str_nat_close_free j) _ _ Heq); reflexivity.
Qed.

Lemma strip_prefix_append p s : strip_prefix p (p +:+ s) = Some s.
Proof.
  induction p as [|c p IH]; [now destruct s |].
  rewrite append_cons. simpl. now rewrite Ascii.eqb_refl.
Qed.

Lemma strip_prefix_Some p : forall q s, strip_prefix p q = Some s -> q = p +:+ s.
Proof.
  induction p as [|c p IH]; intros q s; simpl.
  - rewrite append_empty. congruence.
  - destruct q as [|c' q]; [discriminate |].
    destruct (Ascii.eqb_spec c c') as [->|_]; [| discriminate].
    intros H. rewrite append_cons. now rewrite (IH _ _ H).
Qed.

Lemma key_below_key_path path k : good_key k = true -> key_below path (key_path path k) = Some k.
Proof.
  intros Hk. unfold key_below, key_path. destruct (truthy_str path).
  - rewrite <- append_assoc, strip_prefix_append. now rewrite Hk.
  - now rewrite Hk.
Qed.

Lemma key_below_Some path q k :
  key_below path q = Some k -> q = key_path path k /\ good_key k = true.
Proof.
  unfold key_below, key_path. destruct (truthy_str path).
  - destruct (strip_prefix (path +:+ ".") q) as [k'|] eqn:E; [| discriminate].
    destruct (good_key k') eqn:Hk'; [| discriminate].
    intros H. injection H as <-. apply strip_prefix_Some in E.
    now rewrite E, append_assoc.
  - destruct (good_key q) eqn:Hq; [| discriminate]. intros H. now injection H as <-.
Qed.

(** ** What a diff holds at one path *)

Lemma lookups_no_diff q : lookups no_diff q = nothing.
Proof. unfold lookups, nothing. simpl. now rewrite !lookup_empty. Qed.

Lemma lookup_union_nothing_r {A : Type} (m1 m2 : gmap string A) q :
  m2 !! q = None -> (m1 ∪ m2) !! q = m1 !! q.
Proof. intros H. rewrite lookup_union, H. now destruct (m1 !! q). Qed.

Lemma lookup_union_nothing_l {A : Type} (m1 m2 : gmap string A) q :
  m1 !! q = None -> (m1 ∪ m2) !! q = m2 !! q.
Proof. intros H. rewrite lookup_union, H. now destruct (m2 !! q). Qed.

Lemma lookups_merge_l d1 d2 q : lookups d2 q = nothing -> lookups (merge d1 d2) q = lookups d1 q.
Proof.
  unfold lookups, nothing. simpl. intros H. injection H as Ha Hr Hc Hla Hlr.
  now rewrite !lookup_union_nothing_r.
Qed.

Lemma lookups_merge_r d1 d2 q : lookups d1 q = nothing -> lookups (merge d1 d2) q = lookups d2 q.
Proof.
  unfold lookups, nothing. simpl. intros H. injection H as Ha Hr Hc Hla Hlr.
  now rewrite !lookup_union_nothing_l.
Qed.

Lemma lookups_merge_nothing d1 d2 q :
  lookups d1 q = nothing -> lookups d2 q = nothing -> lookups (merge d1 d2) q = nothing.
Proof. intros H1 H2. now rewrite lookups_merge_l. Qed.

Lemma lookups_added_at p v q : q <> p -> lookups (added_at p v) q = nothing.
Proof.
  intros H. unfold lookups, nothing. simpl.
  rewrite !lookup_empty, lookup_singleton_ne by congruence. reflexivity.
Qed.

Lemma lookups_removed_at p v q : q <> p -> lookups (removed_at p v) q = nothing.
Proof.
  intros H. unfold lookups, nothing. simpl.
  rewrite !lookup_empty, lookup_singleton_ne by congruence. reflexivity.
Qed.

Lemma lookups_changed_at p old new q : q <> p -> lookups (changed_at p old new) q = nothing.
Proof.
  intros H. unfold lookups, nothing. simpl.
  rewrite !lookup_empty, lookup_singleton_ne by congruence. reflexivity.
Qed.

Lemma lookups_list_added_at p v q : q <> p -> lookups (list_added_at p v) q = nothing.
Proof.
  intros H. unfold lookups, nothing. simpl.
  rewrite !lookup_empty, lookup_singleton_ne by congruence. reflexivity.
Qed.

Lemma lookups_list_removed_at p v q : q <> p -> lookups (list_removed_at p v) q = nothing.
Proof.
  intros H. unfold lookups, nothing. simpl.
  rewrite !lookup_empty, lookup_singleton_ne by congruence. reflexivity.
Qed.

Lemma lookups_eq d1 d2 q :
  lookups d1 q = lookups d2 q ->
  added d1 !! q = added d2 !! q /\ removed d1 !! q = removed d2 !! q /\
  changed d1 !! q = changed d2 !! q /\ list_added d1 !! q = list_added d2 !! q /\
  list_removed d1 !! q = list_removed d2 !! q.
Proof. unfold lookups. intros H. injection H as Ha Hr Hc Hla Hlr. auto. Qed.

Lemma not_below_neq p q : ~ below p q -> q <> p.
Proof. intros H ->. apply H, below_refl. Qed.

Lemma in_previous_nothing compare path cf todo q :
  Forall (fun kv => local_compare compare (snd kv)) todo ->
  Forall (fun kv => ~ below (key_path path (fst kv)) q) todo ->
  lookups (in_previous compare path cf todo) q = nothing.
Proof.
  induction 1 as [|[k v] todo Hv _ IH]; intros Hq; simpl.
  - apply lookups_no_diff.
  - apply Forall_cons in Hq as [Hk Hq]. simpl in Hk.
    apply lookups_merge_nothing; [| now apply IH].
    destruct (dict_get k cf) as [v'|].
    + now apply Hv.
    + now apply lookups_removed_at, not_below_neq.
Qed.

Lemma only_in_current_nothing path pf cf q :
  Forall (fun kv => dict_get (fst kv) pf = None -> q <> key_path path (fst kv)) cf ->
  lookups (only_in_current path pf cf) q = nothing.
Proof.
  induction 1 as [|[k v] cf Hk _ IH]; simpl.
  - apply lookups_no_diff.
  - apply lookups_merge_nothing; [| exact IH]. simpl in Hk.
    destruct (dict_get k pf); [apply lookups_no_diff |].
    now apply lookups_added_at, Hk.
Qed.

Lemma beyond_previous_nothing path cs : forall i q,
  (forall j, (i <= j)%nat -> q <> index_path path j) ->
  lookups (beyond_previous path i cs) q = nothing.
Proof.
  induction cs as [|c cs IH]; intros i q Hq; simpl.
  - apply lookups_no_diff.
  - apply lookups_merge_nothing.
    + apply lookups_list_added_at, Hq. lia.
    + apply IH. intros j Hj. apply Hq. lia.
Qed.

Lemma by_index_nothing compare path ps : forall i cs q,
  Forall (local_compare compare) ps ->
  (forall j, (i <= j)%nat -> ~ below (index_path path j) q) ->
  lookups (by_index compare path i ps cs) q = nothing.
Proof.
  induction ps as [|p ps IH]; intros i cs q Hps Hq.
  - simpl. apply beyond_previous_nothing. intros j Hj. now apply not_below_neq, Hq.
  - apply Forall_cons in Hps as [Hp Hps]. destruct cs as [|c cs]; simpl.
    + apply lookups_merge_nothing.
      * apply lookups_list_removed_at, not_below_neq, Hq. lia.
      * apply IH; [exact Hps |]. intros j Hj. apply Hq. lia.
    + apply lookups_merge_nothing.
      * destruct (structurally_identical p c); [apply lookups_no_diff |].
        apply Hp, Hq. lia.
      * apply IH; [exact Hps |]. intros j Hj. apply Hq. lia.
Qed.

(** Every entry of [diff_at path _ _] is at a path under [path]. *)
Lemma diff_at_local v : local_compare diff_at v.
Proof.
  induction v as [| b | n | s | ps IH | pf IH] using json_ind; intros path c q Hq;
    try (destruct c; simpl;
         match goal with
         | |- context [if ?b then _ else _] => destruct b
         | _ => idtac
         end;
         solve [apply lookups_no_diff | now apply lookups_changed_at, not_below_neq]).
  - destruct c as [| | | | cs |];
      try (simpl; now apply lookups_changed_at, not_below_neq).
    simpl. apply by_index_nothing; [exact IH |].
    intros j _ H. apply Hq. eapply below_index_path, H.
  - destruct c as [| | | | | cf];
      try (simpl; now apply lookups_changed_at, not_below_neq).
    simpl. apply lookups_merge_nothing.
    + apply in_previous_nothing; [exact IH |].
      apply Forall_forall. intros [k v] _ H. apply Hq. eapply below_key_path, H.
    + apply only_in_current_nothing. apply Forall_forall. intros [k v] _ _ ->.
      apply Hq. eapply below_key_path, below_refl.
Qed.

(** ** Applying a diff: objects *)

Lemma good_keys_array items : good_keys (JArray items) <-> Forall good_keys items.
Proof.
  simpl. induction items as [|x items IH]; simpl.
  - split; [constructor | trivial].
  - rewrite IH, Forall_cons. tauto.
Qed.

Lemma good_keys_object fields :
  good_keys (JObject fields) <->
  Forall (fun kv => good_key (fst kv) = true /\ good_keys (snd kv)) fields.
Proof.
  simpl. induction fields as [|kv fields IH]; simpl.
  - split; [constructor | trivial].
  - rewrite IH, Forall_cons. tauto.
Qed.

Lemma dict_get_elem {A : Type} (d : list (string * A)) k v :
  dict_get k d = Some v -> (k, v) ∈ d.
Proof.
  induction d as [|[k' v'] d IH]; simpl; [discriminate |].
  destruct (String.eqb_spec k' k) as [->|_].
  - intros H. injection H as ->. apply list_elem_of_here.
  - intros H. apply list_elem_of_further, IH, H.
Qed.

Lemma dict_get_None {A : Type} (d : list (string * A)) k :
  dict_get k d = None <-> k ∉ map fst d.
Proof.
  induction d as [|[k' v'] d IH]; simpl.
  - split; [intros _ H; inversion H | reflexivity].
  - rewrite not_elem_of_cons, <- IH.
    destruct (String.eqb_spec k' k) as [->|Hne].
    + split; [discriminate | intros [H _]; congruence].
    + split; [intros H; split; [congruence | exact H] | intros [_ H]; exact H].
Qed.

Lemma elem_has_key {A : Type} (d : list (string * A)) k v : (k, v) ∈ d -> has_key d k = true.
Proof.
  intros Hin. unfold has_key. destruct (dict_get k d) eqn:E; [reflexivity |].
  apply dict_get_None in E. exfalso. apply E, list_elem_of_fmap. now exists (k, v).
Qed.

Lemma each_key_forall same fb todo :
  each_key same fb todo = true <->
  forall k v, (k, v) ∈ todo -> exists v', dict_get k fb = Some v' /\ same v v' = true.
Proof.
  induction todo as [|[k0 v0] todo IH]; simpl.
  - split; [intros _ k v H; inversion H | reflexivity].
  - rewrite andb_true_iff, IH. split.
    + intros [H0 Hrest] k v Hin. apply elem_of_cons in Hin as [Heq|Hin]; [| now apply Hrest].
      injection Heq as -> ->. destruct (dict_get k0 fb) as [v'|]; [eauto | discriminate].
    + intros H. split.
      * destruct (H k0 v0 (list_elem_of_here _ _)) as [v' [-> Hs]]. exact Hs.
      * intros k v Hin. apply H. now apply list_elem_of_further.
Qed.

(** At a path under the key [k] of [previous], the diff of two objects is
    what the entry of [k] alone produces. *)
Lemma in_previous_at path cf todo k v q :
  NoDup (map fst todo) -> (k, v) ∈ todo ->
  Forall (fun kv => good_key (fst kv) = true) todo ->
  below (key_path path k) q ->
  lookups (in_previous diff_at path cf todo) q =
    lookups (match dict_get k cf with
             | Some v' => diff_at (key_path path k) v v'
             | None => removed_at (key_path path k) v
             end) q.
Proof.
  induction todo as [|[k0 v0] todo IH]; intros Hnd Hin Hgood Hq; [inversion Hin |].
  simpl in Hnd. apply NoDup_cons in Hnd as [Hk0 Hnd].
  apply Forall_cons in Hgood as [Hg0 Hgood]. simpl in Hg0.
  assert (Hk : good_key k = true).
  { apply elem_of_cons in Hin as [Heq|Hin]; [now injection Heq as -> _ |].
    rewrite Forall_forall in Hgood. exact (Hgood _ Hin). }
  apply elem_of_cons in Hin as [Heq|Hin]; simpl.
  - injection Heq as -> ->. apply lookups_merge_l, in_previous_nothing.
    + apply Forall_forall. intros kv _. apply diff_at_local.
    + apply Forall_forall. intros [k' v'] Hin' Hbelow. simpl in Hbelow.
      rewrite Forall_forall in Hgood.
      assert (k' = k0) as -> by exact (below_key_path_inj _ _ _ _ (Hgood _ Hin') Hg0 Hbelow Hq).
      apply Hk0, list_elem_of_fmap. now exists (k0, v').
  - assert (Hne : ~ below (key_path path k0) q).
    { intros Hbelow. assert (k0 = k) as -> by exact (below_key_path_inj _ _ _ _ Hg0 Hk Hbelow Hq).
      apply Hk0, list_elem_of_fmap. now exists (k, v). }
    rewrite lookups_merge_r; [now apply IH |].
    destruct (dict_get k0 cf); [now apply diff_at_local |].
    now apply lookups_removed_at, not_below_neq.
Qed.

Lemma key_path_inj path k k' :
  good_key k = true -> good_key k' = true -> key_path path k = key_path path k' -> k = k'.
Proof.
  intros Hk Hk' Heq. apply (below_key_path_inj path k k' (key_path path k) Hk Hk').
  - apply below_refl.
  - rewrite Heq. apply below_refl.
Qed.

(** The [added] entry of a key that [previous] does not have. *)
Lemma only_in_current_at path pf cf k :
  Forall (fun kv => good_key (fst kv) = true) cf -> good_key k = true ->
  dict_get k pf = None ->
  lookups (only_in_current path pf cf) (key_path path k) =
    (dict_get k cf, None, None, None, None).
Proof.
  intros Hgood Hk Hpf. induction Hgood as [|[k0 v0] cf Hg0 _ IH]; simpl.
  - now rewrite lookups_no_diff.
  - simpl in Hg0. destruct (String.eqb_spec k0 k) as [->|Hne].
    + rewrite Hpf. unfold lookups. simpl.
      rewrite !lookup_union, !lookup_empty, lookup_singleton_eq. simpl.
      unfold lookups in IH. injection IH as _ -> -> -> ->.
      now destruct (added (only_in_current path pf cf) !! key_path path k).
    + rewrite lookups_merge_r; [exact IH |].
      destruct (dict_get k0 pf); [apply lookups_no_diff |].
      apply lookups_added_at. intros Heq. apply Hne. symmetry.
      exact (key_path_inj _ _ _ Hk Hg0 Heq).
Qed.

(** What the diff of two objects or of two arrays holds at its own path:
    nothing. *)
Lemma diff_at_objects_self path pf cf :
  Forall (fun kv => good_key (fst kv) = true) pf ->
  Forall (fun kv => good_key (fst kv) = true) cf ->
  lookups (diff_at path (JObject pf) (JObject cf)) path = nothing.
Proof.
  intros Hpf Hcf. simpl. apply lookups_merge_nothing.
  - apply in_previous_nothing.
    + apply Forall_forall. intros kv _. apply diff_at_local.
    + eapply Forall_impl; [exact Hpf |]. intros [k v] Hk. now apply not_below_key_path.
  - apply only_in_current_nothing. eapply Forall_impl; [exact Hcf |].
    intros [k v] Hk _ Heq. simpl in *.
    apply (not_below_key_path path k Hk). rewrite <- Heq. apply below_refl.
Qed.

Lemma diff_at_arrays_self path ps cs :
  lookups (diff_at path (JArray ps) (JArray cs)) path = nothing.
Proof.
  simpl. apply by_index_nothing.
  - apply Forall_forall. intros kv _. apply diff_at_local.
  - intros j _. apply not_below_index_path.
Qed.

(** At its own path a diff holds at most a [changed] entry. *)
Lemma diff_at_self path a b :
  good_keys a -> good_keys b ->
  exists ch, lookups (diff_at path a b) path = (None, None, ch, None, None).
Proof.
  intros Ha Hb.
  assert (Hscalar : exists ch,
             lookups (if scalar_eq a b then no_diff else changed_at path a b) path =
             (None, None, ch, None, None)).
  { destruct (scalar_eq a b); [exists None; apply lookups_no_diff |].
    eexists. unfold lookups. simpl. rewrite !lookup_empty. reflexivity. }
  destruct a as [| | | | ps | pf], b as [| | | | cs | cf]; try exact Hscalar.
  - exists None. apply diff_at_arrays_self.
  - exists None. apply good_keys_object in Ha, Hb. apply diff_at_objects_self.
    + eapply Forall_impl; [exact Ha |]. now intros kv [H _].
    + eapply Forall_impl; [exact Hb |]. now intros kv [H _].
Qed.

Lemma apply_at_unfold d path a :
  apply_at d path a =
    match changed d !! path with
    | Some (_, new) => new
    | None =>
        match a with
        | JObject fields =>
            JObject (kept_fields d (apply_at d) path fields ++ added_fields d path)
        | JArray items =>
            JArray (kept_items d (apply_at d) path 0 items
                    ++ appended_items d (size (list_added d)) path (length items))
        | _ => a
        end
    end.
Proof. destruct a; reflexivity. Qed.

Lemma kept_fields_elem d rec path todo k x :
  (k, x) ∈ kept_fields d rec path todo <->
  exists v, (k, v) ∈ todo /\ removed d !! key_path path k = None /\ x = rec (key_path path k) v.
Proof.
  induction todo as [|[k0 v0] todo IH]; simpl.
  - split; [intros H; inversion H | intros [v [H _]]; inversion H].
  - destruct (removed d !! key_path path k0) eqn:E.
    + rewrite IH. split; intros [v [Hin [Hr Hx]]]; exists v; repeat split; auto.
      * now apply list_elem_of_further.
      * apply elem_of_cons in Hin as [Heq|Hin]; [| exact Hin].
        injection Heq as -> ->. congruence.
    + rewrite elem_of_cons, IH. split.
      * intros [Heq|[v [Hin [Hr Hx]]]].
        -- injection Heq as -> ->. exists v0. repeat split; auto. apply list_elem_of_here.
        -- exists v. repeat split; auto. now apply list_elem_of_further.
      * intros [v [Hin [Hr Hx]]]. apply elem_of_cons in Hin as [Heq|Hin].
        -- injection Heq as -> ->. left. now rewrite Hx.
        -- right. exists v. auto.
Qed.

Lemma added_fields_elem d path k x :
  (k, x) ∈ added_fields d path <->
  good_key k = true /\ added d !! key_path path k = Some x.
Proof.
  unfold added_fields. rewrite list_elem_of_omap. split.
  - intros [[q v] [Hin Hk]]. simpl in Hk.
    destruct (key_below path q) as [k'|] eqn:E; [| discriminate].
    injection Hk as -> ->. apply key_below_Some in E as [-> Hg].
    split; [exact Hg |]. now apply elem_of_map_to_list.
  - intros [Hg Hx]. exists (key_path path k, x). split.
    + now apply elem_of_map_to_list.
    + simpl. now rewrite (key_below_key_path path k Hg).
Qed.

(** Below the object at [path], at a path under a key of [previous] the
    diff is what that key alone produces, and at the path of a key that
    [previous] lacks it is the [added] entry of [current], if any. *)
Lemma objects_under_key path pf cf k v q :
  NoDup (map fst pf) -> (k, v) ∈ pf ->
  Forall (fun kv => good_key (fst kv) = true) pf ->
  Forall (fun kv => good_key (fst kv) = true) cf ->
  below (key_path path k) q ->
  lookups (diff_at path (JObject pf) (JObject cf)) q =
    lookups (match dict_get k cf with
             | Some v' => diff_at (key_path path k) v v'
             | None => removed_at (key_path path k) v
             end) q.
Proof.
  intros Hnd Hin Hpf Hcf Hq. simpl.
  assert (Hk : good_key k = true) by (rewrite Forall_forall in Hpf; exact (Hpf _ Hin)).
  rewrite lookups_merge_l; [now apply in_previous_at |].
  apply only_in_current_nothing, Forall_forall. intros [k' v'] Hin' Hnone ->. simpl in *.
  rewrite Forall_forall in Hcf.
  assert (k = k') as -> by exact (below_key_path_inj _ _ _ _ Hk (Hcf _ Hin') Hq (below_refl _)).
  apply dict_get_None in Hnone. apply Hnone, list_elem_of_fmap. now exists (k', v).
Qed.

Lemma objects_at_new_key path pf cf k :
  Forall (fun kv => good_key (fst kv) = true) pf ->
  Forall (fun kv => good_key (fst kv) = true) cf ->
  good_key k = true -> dict_get k pf = None ->
  lookups (diff_at path (JObject pf) (JObject cf)) (key_path path k) =
    (dict_get k cf, None, None, None, None).
Proof.
  intros Hpf Hcf Hk Hnone. simpl.
  rewrite lookups_merge_r; [now apply only_in_current_at |].
  apply in_previous_nothing.
  - apply Forall_forall. intros kv _. apply diff_at_local.
  - apply Forall_forall. intros [k' v'] Hin' Hbelow. simpl in Hbelow.
    rewrite Forall_forall in Hpf.
    assert (k' = k) as -> by exact (below_key_path_inj _ _ _ _ (Hpf _ Hin') Hk Hbelow (below_refl _)).
    apply dict_get_None in Hnone. apply Hnone, list_elem_of_fmap. now exists (k, v').
Qed.

Lemma restores_changed path a b d :
  wf_json b ->
  diff_at path a b = changed_at path a b ->
  (forall q, below path q -> lookups d q = lookups (diff_at path a b) q) ->
  structurally_identical (apply_at d path a) b = true.
Proof.
  intros Hwb Hdiff Hagree. specialize (Hagree path (below_refl path)).
  rewrite Hdiff in Hagree. unfold lookups in Hagree. simpl in Hagree.
  rewrite lookup_singleton_eq in Hagree. injection Hagree as _ _ Hc _ _.
  rewrite apply_at_unfold, Hc. now apply structurally_identical_refl.
Qed.

Lemma restores_scalar a : is_scalar a = true -> restores a.
Proof.
  intros Ha path b d Hwa Hwb Hga Hgb Hagree.
  destruct (scalar_eq a b) eqn:E.
  - assert (Hdiff : diff_at path a b = no_diff).
    { destruct a, b; try discriminate; simpl in *; try rewrite E; reflexivity. }
    specialize (Hagree path (below_refl path)).
    rewrite Hdiff, lookups_no_diff in Hagree. injection Hagree as _ _ Hc _ _.
    rewrite apply_at_unfold, Hc.
    destruct a, b; try discriminate; exact E.
  - apply restores_changed; [exact Hwb | | exact Hagree].
    destruct a, b; try discriminate; simpl in *; try rewrite E; reflexivity.
Qed.

Lemma restores_object pf : Forall (fun kv => restores (snd kv)) pf -> restores (JObject pf).
Proof.
  intros IH path b d Hwa Hwb Hga Hgb Hagree.
  destruct b as [| | | | | cf];
    try (apply restores_changed; [exact Hwb | reflexivity | exact Hagree]).
  apply wf_json_object in Hwa as [Hnda Hwa], Hwb as [Hndb Hwb].
  apply good_keys_object in Hga, Hgb.
  assert (Hpf : Forall (fun kv : string * json => good_key (fst kv) = true) pf)
    by (eapply Forall_impl; [exact Hga |]; now intros kv [H _]).
  assert (Hcf : Forall (fun kv : string * json => good_key (fst kv) = true) cf)
    by (eapply Forall_impl; [exact Hgb |]; now intros kv [H _]).
  rewrite Forall_forall in IH, Hwa, Hwb, Hga, Hgb.
  assert (Hnone : changed d !! path = None).
  { specialize (Hagree path (below_refl path)).
    rewrite (diff_at_objects_self path pf cf Hpf Hcf) in Hagree.
    now injection Hagree as _ _ Hc _ _. }
  assert (Hunder : forall k v q, (k, v) ∈ pf -> below (key_path path k) q ->
            lookups d q = lookups (match dict_get k cf with
                                   | Some v' => diff_at (key_path path k) v v'
                                   | None => removed_at (key_path path k) v
                                   end) q).
  { intros k v q Hin Hq. rewrite (Hagree q (below_key_path _ _ _ Hq)).
    now apply objects_under_key. }
  assert (Hkept : forall k v v', (k, v) ∈ pf -> dict_get k cf = Some v' ->
            removed d !! key_path path k = None).
  { intros k v v' Hin Hget. pose proof (Hunder k v _ Hin (below_refl _)) as H.
    rewrite Hget in H. apply dict_get_elem in Hget.
    destruct (diff_at_self (key_path path k) v v' (proj2 (Hga _ Hin)) (proj2 (Hgb _ Hget)))
      as [ch Hself].
    rewrite Hself in H. now injection H as _ Hr _ _ _. }
  rewrite apply_at_unfold, Hnone. simpl. apply andb_true_iff. split.
  - apply each_key_forall. intros k x Hin. apply elem_of_app in Hin as [Hin|Hin].
    + apply kept_fields_elem in Hin as [v [Hin [Hr ->]]].
      pose proof (Hunder k v) as Hk.
      destruct (dict_get k cf) as [v'|] eqn:Hget.
      * exists v'. split; [reflexivity |]. apply dict_get_elem in Hget.
        apply (IH _ Hin); simpl; auto.
        -- exact (Hwa _ Hin).
        -- exact (Hwb _ Hget).
        -- exact (proj2 (Hga _ Hin)).
        -- exact (proj2 (Hgb _ Hget)).
      * specialize (Hk _ Hin (below_refl _)). unfold lookups in Hk. simpl in Hk.
        rewrite lookup_singleton_eq in Hk. injection Hk as _ Hk _ _ _. congruence.
    + apply added_fields_elem in Hin as [Hg Hadd].
      destruct (dict_get k pf) as [v|] eqn:Hprev.
      * apply dict_get_elem in Hprev. pose proof (Hunder k v _ Hprev (below_refl _)) as H.
        destruct (dict_get k cf) as [v'|] eqn:Hget.
        -- apply dict_get_elem in Hget.
           destruct (diff_at_self (key_path path k) v v' (proj2 (Hga _ Hprev))
                       (proj2 (Hgb _ Hget))) as [ch Hself].
           rewrite Hself in H. injection H as Ha _ _ _ _. congruence.
        -- unfold lookups in H. simpl in H. rewrite lookup_empty in H.
           injection H as Ha _ _ _ _. congruence.
      * pose proof (Hagree _ (below_key_path _ _ _ (below_refl (key_path path k)))) as H.
        rewrite (objects_at_new_key path pf cf k Hpf Hcf Hg Hprev) in H.
        injection H as Ha _ _ _ _. rewrite Hadd in Ha. exists x. split; [now symmetry |].
        apply structurally_identical_refl. symmetry in Ha. apply dict_get_elem in Ha.
        exact (Hwb _ Ha).
  - apply forallb_forall. intros k Hk. apply in_map_iff in Hk as [[k' v'] [<- Hin]].
    simpl. apply list_elem_of_In in Hin.
    pose proof (dict_get_nodup cf k' v' Hndb Hin) as Hget.
    destruct (dict_get k' pf) as [v|] eqn:Hprev.
    + apply dict_get_elem in Hprev.
      apply (elem_has_key _ k' (apply_at d (key_path path k') v)).
      apply elem_of_app. left. apply kept_fields_elem. exists v.
      repeat split; [exact Hprev | exact (Hkept _ _ _ Hprev Hget)].
    + apply (elem_has_key _ k' v'). apply elem_of_app. right.
      apply added_fields_elem. split; [exact (proj1 (Hgb _ Hin)) |].
      pose proof (Hagree _ (below_key_path _ _ _ (below_refl (key_path path k')))) as H.
      rewrite (objects_at_new_key path pf cf k' Hpf Hcf (proj1 (Hgb _ Hin)) Hprev) in H.
      injection H as Ha _ _ _ _. congruence.
Qed.

(** ** Applying a diff: arrays *)

Lemma index_path_inj path i j : index_path path i = index_path path j -> i = j.
Proof.
  intros Heq. apply (below_index_path_inj path i j (index_path path i)).
  - apply below_refl.
  - rewrite Heq. apply below_refl.
Qed.

Lemma identical_or_compared q p c :
  (if structurally_identical p c then no_diff else diff_at q p c) = diff_at q p c.
Proof.
  destruct (structurally_identical p c) eqn:E; [| reflexivity].
  symmetry. now apply diff_at_empty.
Qed.

Lemma by_index_at_head path i p ps c cs q :
  below (index_path path i) q ->
  lookups (by_index diff_at path i (p :: ps) (c :: cs)) q =
    lookups (diff_at (index_path path i) p c) q.
Proof.
  intros Hq. simpl. rewrite identical_or_compared. apply lookups_merge_l, by_index_nothing.
  - apply Forall_forall. intros x _. apply diff_at_local.
  - intros j Hj Hbelow. pose proof (below_index_path_inj _ _ _ _ Hbelow Hq). lia.
Qed.

Lemma by_index_at_tail path i p ps cs j q :
  (i < j)%nat -> below (index_path path j) q ->
  lookups (by_index diff_at path i (p :: ps) cs) q =
    lookups (by_index diff_at path (S i) ps (tail cs)) q.
Proof.
  intros Hj Hq.
  assert (Hne : ~ below (index_path path i) q).
  { intros Hbelow. pose proof (below_index_path_inj _ _ _ _ Hbelow Hq). lia. }
  destruct cs as [|c cs]; simpl; apply lookups_merge_r.
  - now apply lookups_list_removed_at, not_below_neq.
  - rewrite identical_or_compared. now apply diff_at_local.
Qed.

(** ** The diff engine: arrays, position by position *)

Lemma merge_no_diff_l d : merge no_diff d = d.
Proof.
  destruct d as [a r c la lr]. unfold merge, no_diff. simpl.
  now rewrite !(left_id_L ∅ (∪)).
Qed.

Lemma fold_right_pointwise {A B : Type} (f g : A -> B -> B) b l :
  (forall x y, f x y = g x y) -> fold_right f b l = fold_right g b l.
Proof. intros Hfg. induction l as [|x l IH]; simpl; [reflexivity | now rewrite IH, Hfg]. Qed.

Lemma fold_right_seq_S {B : Type} (f : nat -> B -> B) b n : forall lo,
  fold_right f b (seq (S lo) n) = fold_right (fun j => f (S j)) b (seq lo n).
Proof. induction n as [|n IH]; intros lo; simpl; [reflexivity | now rewrite IH]. Qed.

(** The walk over two arrays from position [i] on is the merge, index by
    index, of what section 4.4 asks at each index. *)
Lemma by_index_positions path ps : forall cs i,
  by_index diff_at path i ps cs =
    fold_right (fun j rest => merge (entry_at path (i + j) (ps !! j) (cs !! j)) rest) no_diff
               (seq 0 (Nat.max (length ps) (length cs))).
Proof.
  induction ps as [|p ps IH]; intros cs i.
  - simpl by_index. simpl length. rewrite Nat.max_0_l. revert i.
    induction cs as [|c cs IHcs]; intros i; [reflexivity |].
    simpl. rewrite Nat.add_0_r, IHcs, fold_right_seq_S. f_equal.
    apply fold_right_pointwise. intros j rest. simpl. now rewrite Nat.add_succ_r.
  - destruct cs as [|c cs]; simpl.
    + rewrite Nat.add_0_r, (IH [] (S i)), fold_right_seq_S. simpl length.
      rewrite Nat.max_0_r. f_equal.
      apply fold_right_pointwise. intros j rest. simpl. now rewrite Nat.add_succ_r.
    + rewrite Nat.add_0_r, identical_or_compared, (IH cs (S i)), fold_right_seq_S. f_equal.
      apply fold_right_pointwise. intros j rest. simpl. now rewrite Nat.add_succ_r.
Qed.

Lemma beyond_previous_under path cs : forall i j q,
  below (index_path path (i + j)) q ->
  lookups (beyond_previous path i cs) q = lookups (entry_at path (i + j) None (cs !! j)) q.
Proof.
  induction cs as [|c cs IH]; intros i j q Hq; [reflexivity |].
  destruct j as [|j]; simpl.
  - rewrite Nat.add_0_r in *. apply lookups_merge_l, beyond_previous_nothing.
    intros k Hk ->. pose proof (below_index_path_inj _ _ _ _ Hq (below_refl _)). lia.
  - rewrite lookups_merge_r.
    + rewrite Nat.add_succ_r in *. exact (IH (S i) j q Hq).
    + apply lookups_list_added_at. intros ->.
      pose proof (below_index_path_inj _ _ _ _ Hq (below_refl _)). lia.
Qed.

(** Under the path of one index, the walk holds what that index of the
    two arrays gives, and nothing of the other indexes. *)
Lemma by_index_under path ps : forall cs i j q,
  below (index_path path (i + j)) q ->
  lookups (by_index diff_at path i ps cs) q =
    lookups (entry_at path (i + j) (ps !! j) (cs !! j)) q.
Proof.
  induction ps as [|p ps IH]; intros cs i j q Hq.
  - now apply beyond_previous_under.
  - destruct j as [|j].
    + rewrite Nat.add_0_r in *. destruct cs as [|c cs].
      * simpl. apply lookups_merge_l, by_index_nothing.
        -- apply Forall_forall. intros x _. apply diff_at_local.
        -- intros k Hk Hbelow. pose proof (below_index_path_inj _ _ _ _ Hbelow Hq). lia.
      * now apply by_index_at_head.
    + rewrite (by_index_at_tail path i p ps cs (i + S j) q ltac:(lia) Hq).
      rewrite Nat.add_succ_r in *. rewrite (IH (tail cs) (S i) j q Hq).
      now destruct cs.
Qed.

Lemma scalar_eq_sym a b : scalar_eq a b = scalar_eq b a.
Proof.
  destruct a as [| x | x | x | |], b as [| y | y | y | |]; simpl; try reflexivity.
  - now destruct x, y.
  - apply Z.eqb_sym.
  - apply String.eqb_sym.
Qed.

Lemma scalars_identical a b :
  is_scalar a = true -> is_scalar b = true -> structurally_identical a b = scalar_eq a b.
Proof. destruct a, b; simpl; try discriminate; reflexivity. Qed.

Lemma scalars_diff_at path a b :
  is_scalar a = true -> is_scalar b = true -> scalar_eq a b = false ->
  diff_at path a b = changed_at path a b.
Proof.
  intros Ha Hb Hab. destruct a, b; simpl in *; try discriminate; try rewrite Hab; reflexivity.
Qed.

Lemma surplus_removed path extra : forall i,
  by_index diff_at path i extra [] =
    fold_right merge no_diff
               (imap (fun j x => list_removed_at (index_path path (i + j)) x) extra).
Proof.
  induction extra as [|x extra IH]; intros i; [reflexivity |].
  simpl. rewrite Nat.add_0_r, (IH (S i)). do 2 f_equal.
  apply imap_ext. intros j y _. simpl. now rewrite Nat.add_succ_r.
Qed.

Lemma common_prefix_no_entry path items extra : forall i,
  Forall wf_json items ->
  by_index diff_at path i (items ++ extra) items = by_index diff_at path (i + length items) extra [].
Proof.
  induction items as [|x items IH]; intros i Hwf; simpl.
  - rewrite Nat.add_0_r. now destruct extra.
  - apply Forall_cons in Hwf as [Hx Hwf].
    rewrite (structurally_identical_refl x Hx), merge_no_diff_l, (IH (S i) Hwf).
    now rewrite Nat.add_succ_r.
Qed.

(** C7: arrays are compared position by position, and the order of the
    elements counts.  The diff of two arrays is the merge over the indexes
    [0 .. max(len) - 1] of what each index gives: the comparison of the two
    elements below [path[index]], a [list_removed] entry past the end of
    [current], a [list_added] entry past the end of [previous]; and what
    the diff holds under [path[index]] depends on that index of the two
    arrays alone.  Two different scalars in swapped order give exactly two
    [changed] entries, at [[0]] and [[1]]; an array cut short gives exactly
    the [list_removed] entries of the elements cut off, each at its own
    index.  So [[1,2]] against [[2,1]] is not empty: it has exactly the two
    [changed] entries at [[0]] and [[1]]; and [[1,2,3]] against [[1,2]] has
    exactly one entry, [list_removed] at [[2]] with the value 3. *)
Theorem array_diff_is_positional :
  (forall path ps cs,
      diff_at path (JArray ps) (JArray cs) =
        fold_right (fun i rest => merge (at_index path ps cs i) rest) no_diff
                   (seq 0 (Nat.max (length ps) (length cs)))) /\
  (forall path ps cs i q,
      below (index_path path i) q ->
      lookups (diff_at path (JArray ps) (JArray cs)) q = lookups (at_index path ps cs i) q) /\
  (forall a b,
      is_scalar a = true -> is_scalar b = true -> scalar_eq a b = false ->
      diff (JArray [a; b]) (JArray [b; a]) =
        {| added := ∅; removed := ∅;
           changed := {[ "[0]" := (a, b); "[1]" := (b, a) ]};
           list_added := ∅; list_removed := ∅ |}) /\
  (forall path items extra,
      Forall wf_json items ->
      diff_at path (JArray (items ++ extra)) (JArray items) =
        fold_right merge no_diff
          (imap (fun j x => list_removed_at (index_path path (length items + j)) x) extra)) /\
  diff (JArray [JNumber 1; JNumber 2]) (JArray [JNumber 2; JNumber 1]) =
    {| added := ∅; removed := ∅;
       changed := {[ "[0]" := (JNumber 1, JNumber 2); "[1]" := (JNumber 2, JNumber 1) ]};
       list_added := ∅; list_removed := ∅ |} /\
  diff (JArray [JNumber 1; JNumber 2]) (JArray [JNumber 2; JNumber 1]) <> no_diff /\
  diff (JArray [JNumber 1; JNumber 2; JNumber 3]) (JArray [JNumber 1; JNumber 2]) =
    {| added := ∅; removed := ∅; changed := ∅;
       list_added := ∅; list_removed := {[ "[2]" := JNumber 3 ]} |}.
Proof.
  split; [| split; [| split; [| split; [| split; [| split]]]]].
  - intros path ps cs. simpl. rewrite by_index_positions. reflexivity.
  - intros path ps cs i q Hq. simpl. exact (by_index_under path ps cs 0 i q Hq).
  - intros a b Ha Hb Hab.
    assert (Hba : scalar_eq b a = false) by now rewrite scalar_eq_sym.
    unfold diff. simpl.
    rewrite (scalars_identical a b Ha Hb), (scalars_identical b a Hb Ha), Hab, Hba.
    rewrite (scalars_diff_at _ a b Ha Hb Hab), (scalars_diff_at _ b a Hb Ha Hba).
    unfold merge, changed_at, no_diff. simpl.
    rewrite !(left_id_L ∅ (∪)), (right_id_L ∅ (∪)).
    f_equal.
  - intros path items extra Hwf. simpl.
    rewrite (common_prefix_no_entry path items extra 0 Hwf). apply surplus_removed.
  - vm_compute. reflexivity.
  - intros H. unfold diff in H. apply diff_at_empty in H. discriminate.
  - vm_compute. reflexivity.
Qed.

Lemma array_diff_is_positional_witness :
  diff (JArray [JNumber 1; JNumber 2]) (JArray [JNumber 2; JNumber 1]) =
    {| added := ∅; removed := ∅;
       changed := {[ "[0]" := (JNumber 1, JNumber 2); "[1]" := (JNumber 2, JNumber 1) ]};
       list_added := ∅; list_removed := ∅ |} /\
  diff_at "" (JArray ([JNumber 1; JNumber 2] ++ [JNumber 3])) (JArray [JNumber 1; JNumber 2]) =
    fold_right merge no_diff
      (imap (fun j x => list_removed_at (index_path "" (length [JNumber 1; JNumber 2] + j)) x)
            [JNumber 3]).
Proof.
  split.
  - exact (proj1 (proj2 (proj2 array_diff_is_positional))
             (JNumber 1) (JNumber 2) eq_refl eq_refl eq_refl).
  - apply (proj1 (proj2 (proj2 (proj2 array_diff_is_positional)))).
    repeat constructor.
Defined.

(** ** Applying a diff: the appended positions *)

Lemma beyond_previous_at path cs : forall i j,
  (i <= j)%nat ->
  list_added (beyond_previous path i cs) !! index_path path j = cs !! (j - i)%nat.
Proof.
  induction cs as [|c cs IH]; intros i j Hj; simpl.
  - apply lookup_empty.
  - destruct (decide (j = i)) as [->|Hne].
    + rewrite Nat.sub_diag. simpl. rewrite lookup_union, lookup_singleton_eq.
      now destruct (list_added (beyond_previous path (S i) cs) !! index_path path i).
    + rewrite lookup_union_nothing_l.
      * rewrite IH by lia. replace (j - i)%nat with (S (j - S i)) by lia. reflexivity.
      * apply lookup_singleton_ne. intros Heq. apply index_path_inj in Heq. lia.
Qed.

Lemma by_index_list_added path ps : forall i cs j,
  (i + length ps <= j)%nat ->
  list_added (by_index diff_at path i ps cs) !! index_path path j = cs !! (j - i)%nat.
Proof.
  induction ps as [|p ps IH]; intros i cs j Hj; simpl in Hj.
  - simpl. apply beyond_previous_at. lia.
  - pose proof (by_index_at_tail path i p ps cs j (index_path path j)
                  ltac:(lia) (below_refl _)) as H.
    apply lookups_eq in H as (_ & _ & _ & Hla & _). rewrite Hla, IH by lia.
    destruct cs as [|c cs]; simpl.
    + now rewrite !lookup_nil.
    + replace (j - i)%nat with (S (j - S i)) by lia. reflexivity.
Qed.

Lemma size_at_least (path : string) n : forall (m : gmap string json) lo,
  (forall j, (lo <= j < lo + n)%nat -> is_Some (m !! index_path path j)) ->
  (n <= size m)%nat.
Proof.
  induction n as [|n IH]; intros m lo Hm; [lia |].
  destruct (Hm lo ltac:(lia)) as [v Hv].
  pose proof (map_size_ne_0_lookup_2 m _ (mk_is_Some _ _ Hv)) as Hsize.
  assert (Hdel : (n <= size (delete (index_path path lo) m))%nat).
  { apply (IH _ (S lo)). intros j Hj. rewrite lookup_delete_ne.
    - apply Hm. lia.
    - intros Heq. apply index_path_inj in Heq. lia. }
  rewrite map_size_delete_Some in Hdel by eauto. lia.
Qed.

Lemma appended_items_found d path cs : forall i fuel,
  (length cs <= fuel)%nat ->
  (forall j, (i <= j)%nat -> list_added d !! index_path path j = cs !! (j - i)%nat) ->
  appended_items d fuel path i = cs.
Proof.
  induction cs as [|c cs IH]; intros i fuel Hfuel Hd.
  - destruct fuel as [|fuel]; [reflexivity |]. simpl.
    now rewrite (Hd i (Nat.le_refl i)), lookup_nil.
  - destruct fuel as [|fuel]; [simpl in Hfuel; lia |]. simpl.
    rewrite (Hd i (Nat.le_refl i)), Nat.sub_diag. simpl. f_equal.
    apply IH; [simpl in Hfuel; lia |].
    intros j Hj. rewrite (Hd j) by lia.
    replace (j - i)%nat with (S (j - S i)) by lia. reflexivity.
Qed.

Lemma pointwise_refl cs :
  Forall wf_json cs -> pointwise structurally_identical cs cs = true.
Proof.
  induction 1 as [|c cs Hc _ IH]; simpl; [reflexivity |].
  now rewrite (structurally_identical_refl c Hc), IH.
Qed.

Lemma restores_items d path ps :
  Forall restores ps ->
  forall i cs fuel,
    Forall wf_json ps -> Forall wf_json cs -> Forall good_keys ps -> Forall good_keys cs ->
    (forall j q, (i <= j)%nat -> below (index_path path j) q ->
                 lookups d q = lookups (by_index diff_at path i ps cs) q) ->
    (length cs - length ps <= fuel)%nat ->
    pointwise structurally_identical
      (kept_items d (apply_at d) path i ps ++ appended_items d fuel path (i + length ps)) cs
    = true.
Proof.
  induction 1 as [|p ps Hp _ IH]; intros i cs fuel Hwp Hwc Hgp Hgc Hagree Hfuel.
  - simpl. rewrite Nat.add_0_r, (appended_items_found d path cs i fuel).
    + now apply pointwise_refl.
    + simpl in Hfuel. lia.
    + intros j Hj. pose proof (Hagree j _ Hj (below_refl _)) as H.
      apply lookups_eq in H as (_ & _ & _ & Hla & _). rewrite Hla. simpl.
      now apply beyond_previous_at.
  - apply Forall_cons in Hwp as [Hwp Hwps], Hgp as [Hgp Hgps].
    assert (Htail : forall j q, (S i <= j)%nat -> below (index_path path j) q ->
              lookups d q = lookups (by_index diff_at path (S i) ps (tail cs)) q).
    { intros j q Hj Hq. rewrite (Hagree j q) by (lia || exact Hq).
      now apply (by_index_at_tail path i p ps cs j). }
    replace (i + length (p :: ps))%nat with (S i + length ps)%nat by (simpl; lia).
    destruct cs as [|c cs]; simpl kept_items.
    + pose proof (Hagree i _ (Nat.le_refl i) (below_refl _)) as H. simpl in H.
      rewrite lookups_merge_l in H.
      2:{ apply by_index_nothing.
          - apply Forall_forall. intros x _. apply diff_at_local.
          - intros j Hj Hbelow.
            pose proof (below_index_path_inj _ _ _ _ Hbelow (below_refl _)). lia. }
      unfold lookups in H. simpl in H. rewrite lookup_singleton_eq in H.
      injection H as _ _ _ _ Hlr. rewrite Hlr.
      apply (IH (S i) [] fuel); auto.
    + apply Forall_cons in Hwc as [Hwc Hwcs], Hgc as [Hgc Hgcs].
      pose proof (Hagree i _ (Nat.le_refl i) (below_refl _)) as H.
      rewrite by_index_at_head in H by apply below_refl.
      destruct (diff_at_self (index_path path i) p c Hgp Hgc) as [ch Hself].
      rewrite Hself in H. injection H as _ _ _ _ Hlr. rewrite Hlr.
      simpl. apply andb_true_iff. split.
      * apply Hp; auto. intros q Hq. rewrite (Hagree i q (Nat.le_refl i) Hq).
        now apply by_index_at_head.
      * apply (IH (S i) cs fuel); auto.
Qed.

Lemma restores_array ps : Forall restores ps -> restores (JArray ps).
Proof.
  intros IH path b d Hwa Hwb Hga Hgb Hagree.
  destruct b as [| | | | cs |];
    try (apply restores_changed; [exact Hwb | reflexivity | exact Hagree]).
  apply wf_json_array in Hwa, Hwb. apply good_keys_array in Hga, Hgb.
  assert (Hnone : changed d !! path = None).
  { specialize (Hagree path (below_refl path)).
    rewrite diff_at_arrays_self in Hagree. now injection Hagree as _ _ Hc _ _. }
  rewrite apply_at_unfold, Hnone.
  change (structurally_identical (JArray ?xs) (JArray cs)) with (pointwise structurally_identical xs cs).
  apply (restores_items d path ps IH 0%nat cs); auto.
  - intros j q _ Hq. apply Hagree. eapply below_index_path, Hq.
  - destruct (decide (length cs <= length ps)%nat) as [Hle|Hgt]; [lia |].
    apply (size_at_least path _ _ (length ps)). intros j Hj.
    pose proof (Hagree _ (below_index_path _ _ _ (below_refl (index_path path j)))) as H.
    apply lookups_eq in H as (_ & _ & _ & Hla & _). rewrite Hla. simpl.
    rewrite by_index_list_added by lia. apply lookup_lt_is_Some. lia.
Qed.

(** Applying the diff of two values to the first gives the second, up to
    the order of object keys. *)
Lemma restores_all a : restores a.
Proof.
  induction a as [| b | n | s | ps IH | pf IH] using json_ind;
    try (apply restores_scalar; reflexivity).
  - now apply restores_array.
  - now apply restores_object.
Qed.

(** C8 as the diff of section 4.4 has it: for two documents whose object
    keys are pairwise distinct, not empty and free of [.] and [[], applying
    all five buckets of [diff A B] to [A] (the [added], [removed] and
    [changed] entries as the claim says, a [list_removed] position
    dropped, the [list_added] values appended) gives a value structurally
    identical to [B], that is [B] up to the order of object keys. *)
Theorem apply_all_buckets_restores (A B : json) :
  wf_json A -> wf_json B -> good_keys A -> good_keys B ->
  structurally_identical (apply_diff (diff A B) A) B = true.
Proof.
  intros HwA HwB HgA HgB. unfold apply_diff, diff.
  now apply restores_all.
Qed.

Lemma apply_all_buckets_restores_witness :
  let A := JObject [("a", JObject [("x", JArray [JNumber 1; JObject [("y", JNumber 2)]; JNumber 7]);
                                   ("gone", JNumber 0)]);
                    ("k", JString "v")] in
  let B := JObject [("new", JArray [JNumber 4]);
                    ("a", JObject [("x", JArray [JNumber 1; JObject [("y", JNumber 3); ("z", JNull)];
                                                 JNumber 7; JNumber 5]);
                                   ("w", JNumber 9)]);
                    ("k", JArray [])] in
  structurally_identical (apply_diff (diff A B) A) B = true.
Proof.
  intros A B. apply apply_all_buckets_restores; simpl; repeat split;
    apply (bool_decide_unpack _); vm_compute; exact I.
Defined.

(** C8 as stated fails.  The difference between [[1,2,3]] and [[1,2]] is
    a [list_removed] entry, so the [added], [removed] and [changed] entries
    are empty and applying them leaves [[1,2,3]].  And a key that contains
    a dot shares its path with a nested key: with all five buckets applied,
    the change of [a] then [b] also overwrites the key [a.b]. *)
Lemma keyed_entries_do_not_restore :
  (let A := JArray [JNumber 1; JNumber 2; JNumber 3] in
   let B := JArray [JNumber 1; JNumber 2] in
   keyed_only (diff A B) = no_diff /\
   apply_diff (keyed_only (diff A B)) A = A /\
   structurally_identical A B = false) /\
  (let A := JObject [("a.b", JNumber 1); ("a", JObject [("b", JNumber 2)])] in
   let B := JObject [("a.b", JNumber 1); ("a", JObject [("b", JNumber 3)])] in
   apply_diff (diff A B) A = JObject [("a.b", JNumber 3); ("a", JObject [("b", JNumber 3)])] /\
   structurally_identical (apply_diff (diff A B) A) B = false).
Proof. repeat split; vm_compute; reflexivity. Qed.


(** * Further properties of the program *)

(** ** The path filter *)

Lemma substring_0_0 s : substring 0 0 s = EmptyString.
Proof. destruct s; reflexivity. Qed.

Lemma path_part_unkeyed result part :
  unkeyed part = true -> exists step, path_part result part = Val step.
Proof.
  unfold unkeyed, path_part. intros H.
  destruct (index "[" part) as [lb|]; [| destruct result; eauto].
  apply Nat.eqb_eq in H. subst lb.
  destruct (index "]" part) as [rb|]; [| destruct result; eauto].
  unfold slice at 1. rewrite substring_0_0. simpl.
  repeat match goal with
         | |- context [match ?x with _ => _ end] => destruct x
         end; eauto.
Qed.

(** X1: a path none of whose parts has a key in front of a bracket (plain
    dotted fields, and bare [[N]] or [[*]] parts) never raises, whatever
    the document. *)
Theorem unkeyed_path_never_raises (data : json) (path : string) :
  forallb unkeyed (split "." path) = true ->
  exists r, _apply_path_filter data path = Val r.
Proof.
  unfold _apply_path_filter. generalize (split "." path) as parts.
  intros parts. revert data. induction parts as [|part parts IH]; intros data Hparts; simpl.
  - eauto.
  - simpl in Hparts. apply andb_true_iff in Hparts as [Hpart Hparts].
    destruct (path_part_unkeyed data part Hpart) as [[r|r] ->]; simpl; eauto.
Qed.

Lemma unkeyed_path_never_raises_witness :
  exists r, _apply_path_filter (JArray [JArray [JNumber 1]]) "[0].[0].name" = Val r.
Proof. exact (unkeyed_path_never_raises (JArray [JArray [JNumber 1]]) "[0].[0].name" eq_refl). Defined.

Lemma path_part_empty_object part :
  path_part (JObject []) part = Val (Next (JObject [])) \/
  path_part (JObject []) part = Val (Return (JObject [])).
Proof.
  unfold path_part.
  destruct (index "[" part) as [lb|]; [| now left].
  destruct (index "]" part) as [rb|]; [| now left].
  assert (Hkey : (if truthy_str (slice 0 lb part)
                  then get_or_empty (JObject []) (slice 0 lb part)
                  else Val (JObject [])) = Val (JObject []))
    by (destruct (truthy_str (slice 0 lb part)); reflexivity).
  rewrite Hkey. simpl.
  destruct (String.eqb (slice (lb + 1) rb part) "*"); [now right |].
  destruct (int (slice (lb + 1) rb part)); now right.
Qed.

Lemma path_loop_empty_object parts : path_loop parts (JObject []) = Val (JObject []).
Proof.
  induction parts as [|part parts IH]; simpl; [reflexivity |].
  destruct (path_part_empty_object part) as [-> | ->]; simpl; [exact IH | reflexivity].
Qed.

(** X2: a miss is final.  On the empty object every path gives the empty
    object, so once a field is missing from an object the rest of the
    path, whatever it is, can neither find anything nor raise. *)
Theorem missing_field_gives_empty_object :
  (forall path, _apply_path_filter (JObject []) path = Val (JObject [])) /\
  (forall fields part rest,
      contains "." part = false -> index "[" part = None ->
      dict_get part fields = None ->
      _apply_path_filter (JObject fields) (part +:+ "." +:+ rest) = Val (JObject [])).
Proof.
  split.
  - intros path. apply path_loop_empty_object.
  - intros fields part rest Hdot Hbr Hget. unfold _apply_path_filter.
    change (part +:+ "." +:+ rest) with (part +:+ String "." rest).
    rewrite (split_first "." part rest Hdot). simpl.
    unfold path_part. rewrite Hbr, Hget. simpl. apply path_loop_empty_object.
Qed.

Lemma missing_field_gives_empty_object_witness :
  _apply_path_filter (JObject [("a", JNumber 1)]) ("b" +:+ "." +:+ "c[0].d[*]") = Val (JObject []).
Proof.
  exact (proj2 missing_field_gives_empty_object [("a", JNumber 1)] "b" "c[0].d[*]"
           eq_refl eq_refl eq_refl).
Defined.

Lemma contains_append c s t : contains c (s +:+ t) = contains c s || contains c t.
Proof.
  induction s as [|x s IH]; [reflexivity |].
  rewrite append_cons. simpl. now rewrite IH, orb_assoc.
Qed.

Lemma path_part_plain_on_list items part :
  index "[" part = None -> path_part (JArray items) part = Val (Return (JObject [])).
Proof. intros H. unfold path_part. now rewrite H. Qed.

(** X3: a wildcard cannot project a field.  After [key[*]] the current
    result is the whole list, and a plain field applied to a list returns
    the empty object: [key[*].field], with or without more path behind it,
    gives the empty object whenever the lookup of [key] itself does not
    raise. *)
Theorem wildcard_then_field_is_empty (data current : json) (key field rest : string) :
  contains "[" key = false -> contains "]" key = false -> contains "." key = false ->
  contains "." field = false -> index "[" field = None ->
  (if truthy_str key then get_or_empty data key else Val data) = Val current ->
  _apply_path_filter data (key +:+ "[*]" +:+ "." +:+ field) = Val (JObject []) /\
  _apply_path_filter data (key +:+ "[*]" +:+ "." +:+ field +:+ "." +:+ rest) = Val (JObject []).
Proof.
  intros Hk1 Hk2 Hk3 Hf1 Hf2 Hcur.
  assert (Hpart : contains "." (key +:+ "[" +:+ "*" +:+ "]") = false).
  { rewrite contains_append, Hk3. reflexivity. }
  assert (Hstep : path_part data (key +:+ "[" +:+ "*" +:+ "]") =
                  Val match current with
                      | JArray _ => Next current
                      | _ => Return (JObject [])
                      end).
  { rewrite (path_part_bracketed data key "*" Hk1 Hk2 eq_refl), Hcur. simpl.
    destruct current; reflexivity. }
  assert (Hshape : forall tail,
             key +:+ "[*]" +:+ "." +:+ tail = (key +:+ "[" +:+ "*" +:+ "]") +:+ String "." tail).
  { intros tail. now rewrite !append_assoc. }
  unfold _apply_path_filter. split.
  - rewrite Hshape, (split_first "." _ field Hpart), (split_no_sep "." field Hf1).
    simpl. rewrite Hstep. destruct current; simpl; try reflexivity.
    now rewrite (path_part_plain_on_list items field Hf2).
  - rewrite Hshape, (split_first "." _ _ Hpart).
    change (field +:+ "." +:+ rest) with (field +:+ String "." rest).
    rewrite (split_first "." field rest Hf1).
    simpl. rewrite Hstep. destruct current; simpl; try reflexivity.
    now rewrite (path_part_plain_on_list items field Hf2).
Qed.

Lemma wildcard_then_field_is_empty_witness :
  let doc := JObject [("items", JArray [JObject [("name", JString "a")];
                                        JObject [("name", JString "b")]])] in
  _apply_path_filter doc ("items" +:+ "[*]" +:+ "." +:+ "name") = Val (JObject []).
Proof.
  intros doc.
  exact (proj1 (wildcard_then_field_is_empty doc
                  (JArray [JObject [("name", JString "a")]; JObject [("name", JString "b")]])
                  "items" "name" "" eq_refl eq_refl eq_refl eq_refl eq_refl eq_refl)).
Defined.

Lemma subvalue_trans r v w : subvalue r v -> subvalue v w -> subvalue r w.
Proof.
  intros Hrv Hvw. induction Hvw as [| items x Hin _ IH | fields k x Hin _ IH].
  - exact Hrv.
  - exact (subvalue_item r items x Hin IH).
  - exact (subvalue_field r fields k x Hin IH).
Qed.

Lemma get_or_empty_subvalue result key current :
  get_or_empty result key = Val current ->
  current = JObject [] \/ subvalue current result.
Proof.
  destruct result as [| | | | |fields]; try discriminate. simpl.
  destruct (dict_get key fields) as [v|] eqn:Hget; intros H; injection H as <-.
  - right. apply dict_get_elem in Hget.
    exact (subvalue_field v fields key v Hget (subvalue_self v)).
  - now left.
Qed.

Lemma path_part_subvalue result part step :
  path_part result part = Val step ->
  match step with
  | Next r => r = JObject [] \/ subvalue r result
  | Return r => r = JObject []
  end.
Proof.
  unfold path_part.
  destruct (index "[" part) as [lb|], (index "]" part) as [rb|].
  2-4: destruct result as [| | | | |fields]; intros H; injection H as <-; try reflexivity;
       (destruct (dict_get part fields) as [v|] eqn:Hget; [| now left]);
       right; apply dict_get_elem in Hget;
       exact (subvalue_field v fields part v Hget (subvalue_self v)).
  assert (Hcur : forall current,
             (if truthy_str (slice 0 lb part) then get_or_empty result (slice 0 lb part)
              else Val result) = Val current ->
             current = JObject [] \/ subvalue current result).
  { intros current. destruct (truthy_str (slice 0 lb part)).
    - apply get_or_empty_subvalue.
    - intros H. injection H as <-. right. constructor. }
  destruct (if truthy_str (slice 0 lb part) then _ else _) as [current|e]; [| discriminate].
  specialize (Hcur current eq_refl). simpl.
  destruct (String.eqb (slice (lb + 1) rb part) "*").
  - destruct current; intros H; injection H as <-; try reflexivity.
    destruct Hcur as [Hcur|Hcur]; [discriminate | now right].
  - destruct (int (slice (lb + 1) rb part)) as [idx|]; [| intros H; now injection H as <-].
    destruct current as [| | | | items |]; try (intros H; now injection H as <-).
    destruct ((0 <=? idx) && (idx <? Z.of_nat (length items)));
      [| intros H; now injection H as <-].
    destruct (items !! Z.to_nat idx) as [x|] eqn:Hx; intros H; injection H as <-;
      [| reflexivity].
    right. destruct Hcur as [Hcur|Hcur]; [discriminate |].
    apply list_elem_of_lookup_2 in Hx.
    exact (subvalue_trans x _ _ (subvalue_item x items x Hx (subvalue_self x)) Hcur).
Qed.

(** X4: the path filter never makes up data: what it returns is the empty
    object or a value found inside the document. *)
Theorem path_filter_returns_subvalue (data r : json) (path : string) :
  _apply_path_filter data path = Val r ->
  r = JObject [] \/ subvalue r data.
Proof.
  unfold _apply_path_filter. generalize (split "." path) as parts.
  intros parts. revert data. induction parts as [|part parts IH]; intros data; simpl.
  - intros H. injection H as <-. right. constructor.
  - destruct (path_part data part) as [step|e] eqn:Hstep; [| discriminate].
    apply path_part_subvalue in Hstep. simpl. destruct step as [r'|r'].
    + intros H. apply IH in H as [H|H]; [now left |].
      destruct Hstep as [->|Hstep].
      * inversion H; subst; try (now left);
          match goal with Hin : _ ∈ [] |- _ => inversion Hin end.
      * right. exact (subvalue_trans _ _ _ H Hstep).
    + intros H. injection H as <-. now left.
Qed.

Lemma path_filter_returns_subvalue_witness :
  JNumber 20 = JObject [] \/
  subvalue (JNumber 20) (JObject [("a", JObject [("b", JArray [JNumber 10; JNumber 20])])]).
Proof.
  exact (path_filter_returns_subvalue
           (JObject [("a", JObject [("b", JArray [JNumber 10; JNumber 20])])])
           (JNumber 20) "a.b[1]" eq_refl).
Defined.

(** ** The recursive search *)

Lemma dict_set_not_empty {A : Type} k (v : A) d : dict_set k v d <> [].
Proof. destruct d as [|[k' v'] d]; simpl; [| destruct (String.eqb k' k)]; discriminate. Qed.

Lemma dict_set_Forall {A : Type} (P : string * A -> Prop) k v d :
  Forall P d -> P (k, v) -> Forall P (dict_set k v d).
Proof.
  intros Hd Hkv. induction Hd as [|[k' v'] d Hk' Hd IH]; simpl.
  - now constructor.
  - destruct (String.eqb k' k); now constructor.
Qed.

Lemma items_loop_not_empty search todo : forall acc,
  acc <> [] -> items_loop search todo acc <> [].
Proof.
  induction todo as [|[k v] todo IH]; intros acc Hacc; simpl; [exact Hacc |].
  apply IH. destruct (truthy (search v)); [apply dict_set_not_empty | exact Hacc].
Qed.

Lemma item_loop_not_empty search todo : forall acc,
  acc <> [] -> item_loop search todo acc <> [].
Proof.
  induction todo as [|x todo IH]; intros acc Hacc; simpl; [exact Hacc |].
  apply IH. destruct (truthy (search x)); [| exact Hacc].
  destruct acc; discriminate.
Qed.

Lemma items_loop_settled key value todo :
  Forall (fun kv => search_settled key value (snd kv)) todo ->
  forall acc,
    Forall (fun kv => found_shape key value (snd kv)) acc ->
    let result := items_loop (fun v => _find_and_filter_key v key value) todo acc in
    Forall (fun kv => found_shape key value (snd kv)) result /\
    if existsb (fun kv => occurs key value (snd kv)) todo then result <> [] else result = acc.
Proof.
  induction 1 as [|[k v] todo Hv _ IH]; intros acc Hacc; simpl; [auto |].
  unfold search_settled in Hv. simpl in Hv.
  destruct (occurs key value v); simpl.
  - destruct Hv as [Htruthy Hshape]. rewrite Htruthy.
    destruct (IH (dict_set k (_find_and_filter_key v key value) acc)
                (dict_set_Forall _ _ _ _ Hacc Hshape)) as [Hall _].
    split; [exact Hall |]. apply items_loop_not_empty, dict_set_not_empty.
  - rewrite Hv. simpl. apply IH, Hacc.
Qed.

Lemma item_loop_settled key value todo :
  Forall (search_settled key value) todo ->
  forall acc,
    Forall (found_shape key value) acc ->
    let result := item_loop (fun v => _find_and_filter_key v key value) todo acc in
    Forall (found_shape key value) result /\
    if existsb (occurs key value) todo then result <> [] else result = acc.
Proof.
  induction 1 as [|x todo Hx _ IH]; intros acc Hacc; simpl; [auto |].
  unfold search_settled in Hx. simpl in Hx.
  destruct (occurs key value x); simpl.
  - destruct Hx as [Htruthy Hshape]. rewrite Htruthy.
    assert (Hacc' : Forall (found_shape key value) (acc ++ [_find_and_filter_key x key value])).
    { apply Forall_app. split; [exact Hacc | now constructor]. }
    destruct (IH _ Hacc') as [Hall _].
    split; [exact Hall |]. apply item_loop_not_empty. destruct acc; discriminate.
  - rewrite Hx. simpl. apply IH, Hacc.
Qed.

Lemma search_settled_all key value data : search_settled key value data.
Proof.
  induction data as [| b | n | s | items IH | fields IH] using json_ind;
    try reflexivity; unfold search_settled.
  - simpl. destruct (item_loop_settled key value items IH [] (List.Forall_nil _)) as [Hall Hex].
    simpl in Hall, Hex. destruct (existsb (occurs key value) items).
    + destruct (item_loop _ items []) as [|x found] eqn:E; [congruence |].
      split; [reflexivity |]. now apply shape_list.
    + now rewrite Hex.
  - simpl.
    destruct (items_loop_settled key value fields IH [] (List.Forall_nil _)) as [Hall Hex].
    simpl in Hall, Hex.
    assert (Hsearch :
              let result := items_loop (fun v => _find_and_filter_key v key value) fields [] in
              let r := if truthy (JObject result) then JObject result else JNull in
              if existsb (fun kv => occurs key value (snd kv)) fields
              then truthy r = true /\ found_shape key value r else r = JNull).
    { simpl. destruct (existsb _ fields).
      - destruct (items_loop _ fields []) as [|x found] eqn:E; [congruence |].
        split; [reflexivity |]. now apply shape_object.
      - now rewrite Hex. }
    simpl in Hsearch.
    destruct (dict_get key fields) as [v|]; [| exact Hsearch].
    destruct (value_matches value v) eqn:Hmatch; [| exact Hsearch].
    simpl. split; [reflexivity |]. now apply shape_hit.
Qed.

(** X5: the recursive search returns [None] or a value that is true in
    Python's sense and has the shape of a pruned document: lists and
    objects that are not empty, ending in objects [{key: v}] whose [v]
    matches.  It never returns an empty list or an empty object. *)
Theorem search_result_is_none_or_pruned (data : json) (key : string) (value : option string) :
  let r := _find_and_filter_key data key value in
  r = JNull \/ (truthy r = true /\ found_shape key value r).
Proof.
  pose proof (search_settled_all key value data) as H. unfold search_settled in H.
  simpl in *. destruct (occurs key value data); auto.
Qed.

(** X6: the recursive search finds something exactly when some object of
    the document, at any depth, holds the key with a value that matches
    (any value when no match value is given). *)
Theorem search_finds_iff_key_occurs (data : json) (key : string) (value : option string) :
  is_None (_find_and_filter_key data key value) = negb (occurs key value data).
Proof.
  pose proof (search_settled_all key value data) as H. unfold search_settled in H.
  simpl in H. destruct (occurs key value data).
  - destruct H as [H _]. now destruct (_find_and_filter_key data key value).
  - now rewrite H.
Qed.

(** ** [filter_json] *)

Lemma filter_filter {A : Type} (f : A -> bool) l :
  List.filter f (List.filter f l) = List.filter f l.
Proof.
  induction l as [|x l IH]; simpl; [reflexivity |].
  destruct (f x) eqn:E; simpl; [rewrite E |]; now rewrite ?IH.
Qed.

(** X7: on a list the key filter is idempotent: filtering what it kept
    keeps all of it. *)
Theorem key_filter_list_idempotent (w : JSONDiffWatcher) (items : list json) :
  key_filter w (key_filter w (JArray items)) = key_filter w (JArray items).
Proof.
  unfold key_filter. destruct (filter_key w) as [key|]; [| reflexivity].
  destruct (truthy_str key); [| reflexivity].
  now rewrite !keep_item_loop, !app_nil_l, filter_filter.
Qed.

(** ** [display_diff] and the loop *)

(** X9: [display_diff] compares exactly when both projections are computed,
    the previous document is true in Python's sense and its projection is
    not [None]; an empty list or object, zero, the empty string and [false]
    held as previous document are shown as initial data, and so is a
    previous document in which the filter finds nothing.  The function
    returns after the panel of the initial data whatever the libraries do,
    and after a comparison when its output is printed. *)
Theorem display_diff_compares_iff (w : JSONDiffWatcher) (current previous pf cf : json) :
  (display_diff_filtered w current previous = Val (Compared pf cf) <->
   filter_json w current = Val cf /\ truthy previous = true /\
   filter_json w previous = Val pf /\ is_None pf = false) /\
  (filter_json w current = Val cf ->
   truthy previous = false \/ filter_json w previous = Val JNull ->
   display_diff_filtered w current previous = Val (InitialData cf)) /\
  (forall D : Display,
      @display_diff D w current previous = Val (InitialData cf) <->
      display_diff_filtered w current previous = Val (InitialData cf)) /\
  (forall D : Display,
      @display_diff D w current previous = Val (Compared pf cf) <->
      display_diff_filtered w current previous = Val (Compared pf cf) /\
      print_all (display_compared show_only_diffs (deep_diff pf cf)
                   (json_dumps pf) (json_dumps cf)) = Val tt).
Proof.
  split; [split | split; [| split]].
  - unfold display_diff_filtered.
    destruct (filter_json w current) as [cf'|e]; [| discriminate]. simpl.
    destruct (truthy previous); simpl.
    + destruct (filter_json w previous) as [pf'|e]; [| discriminate]. simpl.
      destruct (is_None pf') eqn:Hpf; [discriminate |].
      intros H. injection H as <- <-. auto.
    + discriminate.
  - unfold display_diff_filtered. intros (-> & -> & -> & Hpf). simpl. now rewrite Hpf.
  - unfold display_diff_filtered. intros -> [-> | Hprev]; simpl; [reflexivity |].
    destruct (truthy previous); [| reflexivity]. now rewrite Hprev.
  - intros D. unfold display_diff.
    destruct (display_diff_filtered w current previous) as [[c | p c | e | e | e]|e];
      simpl; try tauto.
    destruct (print_all _) as [[]|e]; simpl; split; discriminate.
  - intros D. unfold display_diff.
    destruct (display_diff_filtered w current previous) as [[c | p c | e | e | e]|e];
      simpl; try (split; [discriminate | intros [Heq _]; discriminate]).
    destruct (print_all _) as [[]|e] eqn:Hprint; simpl.
    + split.
      * intros Heq. injection Heq as -> ->. auto.
      * intros [Heq _]. exact Heq.
    + split; [discriminate |]. intros [Heq Hp]. injection Heq as -> ->. congruence.
Qed.

Lemma display_diff_compares_iff_witness :
  let w := {| filter_path := None; filter_key := Some "id"; filter_value := None |} in
  display_diff_filtered w (JObject [("id", JNumber 1)]) (JObject [("name", JString "x")]) =
    Val (InitialData (JObject [("id", JNumber 1)])).
Proof.
  intros w.
  exact (proj1 (proj2 (display_diff_compares_iff w (JObject [("id", JNumber 1)])
                         (JObject [("name", JString "x")]) JNull (JObject [("id", JNumber 1)])))
           eq_refl (or_intror eq_refl)).
Defined.


(** What a tick that fetched a document shows: one panel, then the
    warning of the write when it failed. *)
Lemma tick_effective `{Display} w st fetched written st' outs :
  effective (fetched, written) = true -> tick w st fetched written = Val (st', outs) ->
  previous_data st' = fetched_document fetched /\
  (write_succeeds (fetched, written) = true ->
   storage_file st' = FileWith (fetched_document fetched)) /\
  exists out warnings,
    outs = out :: warnings /\ is_panel out = true /\
    Forall (fun s => is_save_warning s = true) warnings /\
    length warnings = (if write_succeeds (fetched, written) then 0 else 1)%nat.
Proof.
  intros Heff Htick. destruct (effective_fetched _ _ Heff) as [raw [-> Hraw]].
  destruct (tick_fetched _ _ _ _ _ _ Hraw Htick) as (out & warnings & Hout & Hsave & Hheld & ->).
  destruct (save_previous_file _ _ _ _ _ Hsave) as (Hall & Hdone & Hfailed).
  apply display_diff_panel in Hout as [_ Hpanel].
  split; [exact Hheld |]. unfold write_succeeds. simpl. split.
  - destruct written; try discriminate. intros _. now destruct (Hdone eq_refl).
  - exists out, warnings. repeat split; try assumption.
    destruct written; [now destruct (Hdone eq_refl) as [_ ->] | |]; now apply Hfailed.
Qed.

Lemma filter_all_false {A : Type} (f : A -> bool) l :
  Forall (fun x => f x = false) l -> List.filter f l = [].
Proof. induction 1 as [|x l Hx _ IH]; simpl; [reflexivity | now rewrite Hx]. Qed.

Lemma filter_all_true {A : Type} (f : A -> bool) l :
  Forall (fun x => f x = true) l -> List.filter f l = l.
Proof. induction 1 as [|x l Hx _ IH]; simpl; [reflexivity | now rewrite Hx, IH]. Qed.

Lemma save_warning_kind s :
  is_save_warning s = true -> is_fetch_error s = false /\ is_panel s = false.
Proof. destruct s; simpl; auto; discriminate. Qed.


Lemma panel_kind s :
  is_panel s = true -> is_fetch_error s = false /\ is_save_warning s = false.
Proof. destruct s; simpl; auto; discriminate. Qed.

(** X10: a tick whose request failed, or fetched the document [null],
    changes nothing the loop holds and shows nothing but its error line:
    when the loop gets through the ticks, the loop over the other ticks
    alone ends in the same state and shows the same things, the error
    lines apart. *)
Theorem failed_ticks_only_print (D : Display) (w : JSONDiffWatcher) (st st' : watch_state)
    (ticks : list (fetch_outcome * write_outcome)) (outs : list shown) :
  while_true w st ticks = Val (st', outs) ->
  while_true w st (List.filter effective ticks) =
    Val (st', List.filter (fun s => negb (is_fetch_error s)) outs).
Proof.
  revert st outs. induction ticks as [|[fetched written] ticks IH]; intros st outs.
  - simpl. intros Heq. now injection Heq as <- <-.
  - simpl while_true at 1.
    destruct (tick w st fetched written) as [[st1 out]|e] eqn:Htick; [| discriminate].
    simpl. destruct (while_true w st1 ticks) as [[st2 outs2]|e] eqn:Hloop; [| discriminate].
    simpl. intros Heq. injection Heq as <- <-.
    rewrite List.filter_app. simpl List.filter at 1.
    destruct (effective (fetched, written)) eqn:Heff.
    + simpl. rewrite Htick. simpl. rewrite (IH _ _ Hloop). simpl.
      destruct (tick_effective _ _ _ _ _ _ Heff Htick)
        as (_ & _ & o & warnings & -> & Hpanel & Hall & _).
      assert (Hkept : List.filter (fun s => negb (is_fetch_error s)) warnings = warnings).
      { apply filter_all_true. eapply Forall_impl; [exact Hall |].
        intros s Hs. simpl. now rewrite (proj1 (save_warning_kind _ Hs)). }
      simpl. now rewrite (proj1 (panel_kind _ Hpanel)), Hkept.
    + destruct (tick_skipped _ _ _ _ _ _ Heff Htick) as (-> & Hall & _).
      rewrite (IH _ _ Hloop).
      assert (Hgone : List.filter (fun s => negb (is_fetch_error s)) out = []).
      { apply filter_all_false. eapply Forall_impl; [exact Hall |].
        intros s Hs. simpl. now rewrite Hs. }
      now rewrite Hgone.
Qed.

Lemma failed_ticks_only_print_witness :
  let w := {| filter_path := None; filter_key := None; filter_value := None |} in
  @while_true example_display w {| previous_data := JNull; storage_file := NoFile |}
    [(Fetched (JNumber 1), Written); (Fetched (JNumber 2), FailedAfterOpen "disk full")] =
    Val ({| previous_data := JNumber 2; storage_file := FileBroken |},
         [InitialData (JNumber 1); Compared (JNumber 1) (JNumber 2); SaveWarning "disk full"]).
Proof.
  intros w.
  exact (failed_ticks_only_print example_display w
           {| previous_data := JNull; storage_file := NoFile |}
           {| previous_data := JNumber 2; storage_file := FileBroken |}
           [(Fetched (JNumber 1), Written); (FetchFailed "timed out", Written);
            (Fetched JNull, Written);
            (Fetched (JNumber 2), FailedAfterOpen "disk full")]
           [InitialData (JNumber 1); ErrorFetching "timed out";
            Compared (JNumber 1) (JNumber 2); SaveWarning "disk full"]
           eq_refl).
Defined.






(** ** Rendering *)

Lemma join_cons_not_empty sep c p ps : join sep (String c p :: ps) <> EmptyString.
Proof. destruct ps; simpl; [discriminate | rewrite append_cons; discriminate]. Qed.

(** X13: [format_diff] returns the empty text exactly for an empty diff.
    So in [display_diff], where the diff is not empty, the test
    [if diff_text] always passes: the comparison table is always followed
    by the changes summary. *)
Theorem format_diff_empty_iff (diff : DeepDiff) (prev_str curr_str : string) :
  (format_diff diff = EmptyString <-> truthy_diff diff = false) /\
  (truthy_diff diff = true ->
   display_compared false diff prev_str curr_str =
     [JSONComparison (comparison_rows prev_str curr_str); ChangesSummary (format_diff diff)]).
Proof.
  assert (Hne : truthy_diff diff = true -> format_diff diff <> EmptyString).
  { intros H. unfold format_diff. rewrite H. simpl. unfold output_lines. simpl.
    apply join_cons_not_empty. }
  split.
  - split.
    + intros H. destruct (truthy_diff diff) eqn:E; [destruct (Hne eq_refl H) | reflexivity].
    + intros H. unfold format_diff. now rewrite H.
  - intros H. unfold display_compared. rewrite H. simpl.
    specialize (Hne H). destruct (format_diff diff); [congruence | reflexivity].
Qed.

Lemma format_diff_empty_iff_witness :
  let diff := {| dictionary_item_added := None; dictionary_item_removed := None;
                 values_changed := None; iterable_item_added := None;
                 iterable_item_removed := None; other_reports := ["type_changes"] |} in
  display_compared false diff "1" "2" =
    [JSONComparison [("1", "2")]; ChangesSummary (format_diff diff)].
Proof.
  intros diff. exact (proj2 (format_diff_empty_iff diff "1" "2") eq_refl).
Defined.

Lemma section_lines_length {A : Type} (report : option (list (string * A))) heading
    (entry_lines : string * A -> list string) per_entry :
  (forall e, length (entry_lines e) = per_entry) ->
  length (section_lines report heading entry_lines) = section_size report per_entry.
Proof.
  intros Hper. destruct report as [entries|]; [| reflexivity]. simpl.
  rewrite length_app. simpl. f_equal.
  induction entries as [|e entries IH]; simpl; [lia |].
  rewrite length_app, Hper. lia.
Qed.

(** X14: the lines [format_diff] joins: one title, and for each report
    present a heading and a closing empty line around its entries, three
    lines for a changed value and one line for any other entry.  Reports
    of other kinds, such as type changes, add nothing: a diff made of them
    alone is rendered as the title only. *)
Theorem format_diff_line_count (diff : DeepDiff) :
  length (output_lines diff) =
    (1 + section_size (dictionary_item_added diff) 1
       + section_size (dictionary_item_removed diff) 1
       + section_size (values_changed diff) 3
       + section_size (iterable_item_added diff) 1
       + section_size (iterable_item_removed diff) 1)%nat /\
  (dictionary_item_added diff = None -> dictionary_item_removed diff = None ->
   values_changed diff = None -> iterable_item_added diff = None ->
   iterable_item_removed diff = None -> other_reports diff <> [] ->
   format_diff diff = "[bold cyan]Changes detected:[/bold cyan]" +:+ nl).
Proof.
  split.
  - unfold output_lines. rewrite !length_app.
    rewrite (section_lines_length (dictionary_item_added diff) _ _ 1) by reflexivity.
    rewrite (section_lines_length (dictionary_item_removed diff) _ _ 1) by reflexivity.
    rewrite (section_lines_length (values_changed diff) _ _ 3) by reflexivity.
    rewrite (section_lines_length (iterable_item_added diff) _ _ 1) by reflexivity.
    rewrite (section_lines_length (iterable_item_removed diff) _ _ 1) by reflexivity.
    simpl. lia.
  - intros H1 H2 H3 H4 H5 H6. unfold format_diff, truthy_diff, output_lines.
    rewrite H1, H2, H3, H4, H5. simpl. destruct (other_reports diff); [congruence |].
    reflexivity.
Qed.

Lemma format_diff_line_count_witness :
  format_diff {| dictionary_item_added := None; dictionary_item_removed := None;
                 values_changed := None; iterable_item_added := None;
                 iterable_item_removed := None; other_reports := ["type_changes"] |} =
    "[bold cyan]Changes detected:[/bold cyan]" +:+ nl.
Proof.
  refine (proj2 (format_diff_line_count
                   {| dictionary_item_added := None; dictionary_item_removed := None;
                      values_changed := None; iterable_item_added := None;
                      iterable_item_removed := None; other_reports := ["type_changes"] |})
            eq_refl eq_refl eq_refl eq_refl eq_refl _).
  discriminate.
Defined.

Lemma split_not_nil c s : split c s <> [].
Proof.
  induction s as [|x s IH]; simpl; [discriminate |].
  destruct (Ascii.eqb x c); [discriminate |]. destruct (split c s); [contradiction | discriminate].
Qed.

(** [sep.join(s.split(sep)) == s] for a one-character separator. *)
Lemma join_split c s : join (String c EmptyString) (split c s) = s.
Proof.
  induction s as [|x s IH]; [reflexivity |]. simpl.
  destruct (Ascii.eqb_spec x c) as [->|Hne].
  - pose proof (split_not_nil c s) as Hnil.
    destruct (split c s) as [|h t]; [contradiction |].
    change (join (String c "") ("" :: h :: t)) with ("" +:+ String c "" +:+ join (String c "") (h :: t)).
    now rewrite IH.
  - pose proof (split_not_nil c s) as Hnil.
    destruct (split c s) as [|h t]; [contradiction |].
    destruct t as [|h' t].
    + simpl in *. now rewrite IH.
    + change (join (String c "") (String x h :: h' :: t))
        with (String x h +:+ String c "" +:+ join (String c "") (h' :: t)).
      change (join (String c "") (h :: h' :: t))
        with (h +:+ String c "" +:+ join (String c "") (h' :: t)) in IH.
      now rewrite append_cons, IH.
Qed.

Lemma nth_padding (l : list string) n :
  (length l <= n)%nat ->
  map (fun i => nth i l EmptyString) (seq 0 n) = l ++ replicate (n - length l) EmptyString.
Proof.
  intros Hn. apply list_eq. intros i.
  rewrite list_lookup_fmap.
  destruct (decide (i < n)%nat) as [Hi|Hi].
  - rewrite lookup_seq_lt by exact Hi. simpl.
    destruct (decide (i < length l)%nat) as [Hl|Hl].
    + rewrite lookup_app_l by exact Hl.
      destruct (nth_lookup_or_length l i EmptyString) as [->|Hge]; [reflexivity | lia].
    + rewrite lookup_app_r by lia. rewrite lookup_replicate_2 by lia.
      rewrite nth_overflow by lia. reflexivity.
  - rewrite lookup_seq_ge by lia. simpl. symmetry. apply lookup_ge_None.
    rewrite length_app, length_replicate. lia.
Qed.

(** X15: the side-by-side table has as many rows as the longer of the two
    texts has lines; its first column is the lines of the previous text
    and its second column the lines of the current text, each followed by
    empty cells only; so each text can be read back from its column. *)
Theorem comparison_rows_show_both_texts (prev_str curr_str : string) :
  let prev_lines := split (ascii_of_nat 10) prev_str in
  let curr_lines := split (ascii_of_nat 10) curr_str in
  let rows := comparison_rows prev_str curr_str in
  length rows = Nat.max (length prev_lines) (length curr_lines) /\
  map fst rows = prev_lines ++ replicate (length rows - length prev_lines) EmptyString /\
  map snd rows = curr_lines ++ replicate (length rows - length curr_lines) EmptyString /\
  join nl (take (length prev_lines) (map fst rows)) = prev_str /\
  join nl (take (length curr_lines) (map snd rows)) = curr_str.
Proof.
  intros prev_lines curr_lines rows.
  assert (Hlen : length rows = Nat.max (length prev_lines) (length curr_lines)).
  { unfold rows, comparison_rows. now rewrite length_map, length_seq. }
  assert (Hfst : map fst rows =
                 prev_lines ++ replicate (length rows - length prev_lines) EmptyString).
  { rewrite Hlen. unfold rows, comparison_rows. rewrite map_map. simpl.
    apply nth_padding. fold prev_lines. lia. }
  assert (Hsnd : map snd rows =
                 curr_lines ++ replicate (length rows - length curr_lines) EmptyString).
  { rewrite Hlen. unfold rows, comparison_rows. rewrite map_map. simpl.
    apply nth_padding. fold curr_lines. lia. }
  repeat split; try assumption.
  - rewrite Hfst, take_app_length. apply join_split.
  - rewrite Hsnd, take_app_length. apply join_split.
Qed.

(** ** The headers of [main] *)

Lemma split_once_first c key rest :
  contains c key = false -> split_once c (key +:+ String c rest) = (key, rest).
Proof.
  induction key as [|x key IH]; intros H.
  - rewrite append_empty. simpl. now rewrite Ascii.eqb_refl.
  - simpl in H. apply orb_false_iff in H as [Hx Hk].
    rewrite append_cons. simpl. now rewrite Hx, (IH Hk).
Qed.

Lemma str_lstrip_shape s :
  str_lstrip s = EmptyString \/
  exists c t, str_lstrip s = String c t /\ isspace c = false.
Proof.
  induction s as [|c s IH]; simpl; [now left |].
  destruct (isspace c) eqn:E; [exact IH | right; eauto].
Qed.

Lemma str_rstrip_cons c t :
  isspace c = false -> str_rstrip (String c t) = String c (str_rstrip t).
Proof. intros H. simpl. rewrite H. now destruct (str_rstrip t). Qed.

Lemma str_rstrip_idempotent s : str_rstrip (str_rstrip s) = str_rstrip s.
Proof.
  induction s as [|c s IH]; [reflexivity |]. simpl.
  destruct (str_rstrip s) as [|x r] eqn:E.
  - destruct (isspace c) eqn:Hc; [reflexivity |]. simpl. now rewrite Hc.
  - simpl in *. now rewrite IH.
Qed.

Lemma str_strip_idempotent s : str_strip (str_strip s) = str_strip s.
Proof.
  unfold str_strip. destruct (str_lstrip_shape s) as [-> | (c & t & -> & Hc)]; [reflexivity |].
  rewrite (str_rstrip_cons c t Hc). simpl str_lstrip. rewrite Hc.
  rewrite <- (str_rstrip_cons c t Hc). apply str_rstrip_idempotent.
Qed.

Lemma dict_get_set {A : Type} k (v : A) d k' :
  dict_get k' (dict_set k v d) = if String.eqb k k' then Some v else dict_get k' d.
Proof.
  induction d as [|[k0 v0] d IH]; simpl.
  - reflexivity.
  - destruct (String.eqb_spec k0 k) as [->|Hne]; simpl.
    + now destruct (String.eqb k k').
    + rewrite IH. destruct (String.eqb_spec k0 k') as [->|Hne']; [| reflexivity].
      destruct (String.eqb_spec k k') as [->|_]; [congruence | reflexivity].
Qed.

Lemma dict_set_keys {A : Type} k (v : A) d :
  map fst (dict_set k v d) = if has_key d k then map fst d else map fst d ++ [k].
Proof.
  unfold has_key. induction d as [|[k0 v0] d IH]; simpl; [reflexivity |].
  destruct (String.eqb_spec k0 k) as [->|Hne]; simpl; [reflexivity |].
  rewrite IH. now destruct (dict_get k d).
Qed.

Lemma dict_set_NoDup {A : Type} k (v : A) d :
  NoDup (map fst d) -> NoDup (map fst (dict_set k v d)).
Proof.
  intros Hnd. rewrite dict_set_keys. unfold has_key.
  destruct (dict_get k d) eqn:E; [exact Hnd |].
  apply NoDup_app. repeat split; [exact Hnd | | apply NoDup_singleton].
  intros x Hx Hin. apply list_elem_of_singleton in Hin. subst x.
  now apply dict_get_None in E.
Qed.

Lemma add_header_invariant headers header :
  NoDup (map fst headers) /\ Forall stripped headers ->
  NoDup (map fst (add_header headers header)) /\ Forall stripped (add_header headers header).
Proof.
  intros [Hnd Hall]. unfold add_header.
  destruct (contains ":" header); [| auto].
  destruct (split_once ":" header) as [key value].
  split; [now apply dict_set_NoDup |].
  apply dict_set_Forall; [exact Hall |].
  split; apply str_strip_idempotent.
Qed.

(** X16: an argument of [--header] without a colon is ignored, wherever it
    stands among the others. *)
Theorem header_without_colon_ignored (before after : list string) (header : string) :
  contains ":" header = false ->
  parse_headers (Some (before ++ header :: after)) = parse_headers (Some (before ++ after)).
Proof.
  intros H. simpl. rewrite !fold_left_app. simpl.
  unfold add_header at 2. now rewrite H.
Qed.

Lemma header_without_colon_ignored_witness :
  parse_headers (Some (["A: 1"] ++ "no colon here" :: ["B: 2"])) =
  parse_headers (Some (["A: 1"] ++ ["B: 2"])).
Proof. exact (header_without_colon_ignored ["A: 1"] ["B: 2"] "no colon here" eq_refl). Defined.

(** X17: a header written [Key: Value] is stored under [Key] with the value
    [Value], when the key has no colon and neither has white space around
    it; colons inside the value are kept, since the text is split at the
    first colon only. *)
Theorem header_key_value_read_back (headers : list (string * string)) (key value : string) :
  contains ":" key = false -> str_strip key = key -> str_strip value = value ->
  add_header headers (key +:+ ": " +:+ value) = dict_set key value headers /\
  dict_get key (add_header headers (key +:+ ": " +:+ value)) = Some value.
Proof.
  intros Hcolon Hkey Hvalue.
  assert (Hadd : add_header headers (key +:+ ": " +:+ value) = dict_set key value headers).
  { unfold add_header.
    change (key +:+ ": " +:+ value) with (key +:+ String ":" (String " " value)).
    rewrite contains_append. simpl contains at 2. rewrite orb_true_r.
    rewrite (split_once_first ":" key _ Hcolon), Hkey.
    replace (str_strip (String " " value)) with (str_strip value) by reflexivity.
    now rewrite Hvalue. }
  split; [exact Hadd |]. now rewrite Hadd, dict_get_set, String.eqb_refl.
Qed.

Lemma header_key_value_read_back_witness :
  add_header [("Accept", "*/*")] ("Authorization" +:+ ": " +:+ "Bearer a:b") =
    [("Accept", "*/*"); ("Authorization", "Bearer a:b")].
Proof.
  exact (proj1 (header_key_value_read_back [("Accept", "*/*")] "Authorization" "Bearer a:b"
                  eq_refl eq_refl eq_refl)).
Defined.

(** X18: in the headers [main] builds no name appears twice, names and
    values carry no white space at either end, and when a name is given
    again the later value replaces the earlier one. *)
Theorem parsed_headers_are_clean (args_headers : option (list string)) :
  NoDup (map fst (parse_headers args_headers)) /\
  Forall stripped (parse_headers args_headers) /\
  forall given header key value,
    args_headers = Some (given ++ [header]) ->
    contains ":" header = true -> split_once ":" header = (key, value) ->
    dict_get (str_strip key) (parse_headers args_headers) = Some (str_strip value).
Proof.
  assert (Hinv : forall given acc,
             NoDup (map fst acc) /\ Forall stripped acc ->
             NoDup (map fst (fold_left add_header given acc)) /\
             Forall stripped (fold_left add_header given acc)).
  { induction given as [|h given IH]; intros acc Hacc; simpl; [exact Hacc |].
    apply IH, add_header_invariant, Hacc. }
  assert (Hclean : NoDup (map fst (parse_headers args_headers)) /\
                   Forall stripped (parse_headers args_headers)).
  { destruct args_headers as [given|]; simpl.
    - apply Hinv. split; constructor.
    - split; constructor. }
  destruct Hclean as [Hnd Hall]. repeat split; try assumption.
  intros given header key value -> Hcolon Hsplit. simpl.
  rewrite fold_left_app. simpl. unfold add_header at 1.
  now rewrite Hcolon, Hsplit, dict_get_set, String.eqb_refl.
Qed.

Lemma parsed_headers_are_clean_witness :
  dict_get (str_strip "X-Token ") (parse_headers (Some (["X-Token: old"] ++ ["X-Token :  new "])))
  = Some (str_strip "  new ").
Proof.
  exact (proj2 (proj2 (parsed_headers_are_clean (Some (["X-Token: old"] ++ ["X-Token :  new "]))))
           ["X-Token: old"] "X-Token :  new " "X-Token " "  new " eq_refl eq_refl eq_refl).
Defined.

(** ** The cache file of [__init__] *)

Lemma replace_dot_free s : contains "." (replace "." "_" s) = false.
Proof.
  induction s as [|c s IH]; [reflexivity |]. simpl. rewrite IH, orb_false_r.
  destruct (Ascii.eqb_spec c ".") as [->|Hne]; [reflexivity |].
  now apply Ascii.eqb_neq.
Qed.

Lemma replace_idempotent s : replace "." "_" (replace "." "_" s) = replace "." "_" s.
Proof.
  induction s as [|c s IH]; [reflexivity |]. simpl. rewrite IH. f_equal.
  destruct (Ascii.eqb_spec c ".") as [->|Hne]; [reflexivity |].
  now apply Ascii.eqb_neq in Hne as ->.
Qed.

Lemma append_cancel_r u : forall s t, s +:+ u = t +:+ u -> s = t.
Proof.
  induction s as [|c s IH]; intros [|c' t]; rewrite ?append_empty, ?append_cons; intros H.
  - reflexivity.
  - apply (f_equal String.length) in H. simpl in H. rewrite length_append in H. lia.
  - apply (f_equal String.length) in H. simpl in H. rewrite length_append in H. lia.
  - injection H as -> H. now rewrite (IH t H).
Qed.

(** X19: the cache file is named after the host with every dot turned into
    an underscore, so the name has no dot before its [.json] ending, and
    two hosts get the same cache file exactly when they differ at most by
    dots written as underscores; a host and its underscored form share
    one. *)
Theorem storage_name_merges_dots_and_underscores (netloc other : string) :
  contains "." (replace "." "_" netloc) = false /\
  (storage_name netloc = storage_name other <->
   replace "." "_" netloc = replace "." "_" other) /\
  storage_name (replace "." "_" netloc) = storage_name netloc.
Proof.
  unfold storage_name. repeat split.
  - apply replace_dot_free.
  - apply append_cancel_r.
  - now intros ->.
  - now rewrite replace_idempotent.
Qed.

(** ** Index texts *)

Lemma rev_onto_rev_onto s : forall a b, rev_onto (rev_onto s a) b = rev_onto a (s +:+ b).
Proof.
  induction s as [|c s IH]; intros a b; [reflexivity |].
  simpl. now rewrite IH, append_cons.
Qed.

Lemma reversed_reversed s : reversed (reversed s) = s.
Proof. unfold reversed. now rewrite rev_onto_rev_onto, append_empty_r. Qed.

Lemma stop_free_rev_onto stop s : forall a,
  stop_free stop (rev_onto s a) = stop_free stop s && stop_free stop a.
Proof.
  induction s as [|c s IH]; intros a; [reflexivity |].
  simpl. rewrite IH. simpl. destruct (stop c), (stop_free stop s); reflexivity.
Qed.

Lemma lstrip_space_free s : stop_free is_space s = true -> lstrip s = s.
Proof.
  destruct s as [|c s]; [reflexivity |]. simpl. intros H.
  apply andb_true_iff in H as [Hc _]. apply negb_true_iff in Hc. now rewrite Hc.
Qed.

Lemma strip_space_free s : stop_free is_space s = true -> strip s = s.
Proof.
  intros H. unfold strip. rewrite (lstrip_space_free s H), lstrip_space_free.
  - apply reversed_reversed.
  - unfold reversed. now rewrite stop_free_rev_onto, H.
Qed.

Lemma digits_stop_free (stop : ascii -> bool) d :
  (forall c, stop c = true -> digit_of c = None) ->
  stop_free stop (NilEmpty.string_of_uint d) = true.
Proof.
  intros Hstop.
  assert (Hdigit : forall c, digit_of c <> None -> stop c = false).
  { intros c Hc. destruct (stop c) eqn:E; [destruct (Hc (Hstop c E)) | reflexivity]. }
  induction d; simpl; rewrite ?IHd, ?Hdigit; try reflexivity; discriminate.
Qed.

Lemma stop_free_contains c s :
  stop_free (fun x => Ascii.eqb x c) s = true -> contains c s = false.
Proof.
  induction s as [|x s IH]; [reflexivity |]. simpl. intros H.
  apply andb_true_iff in H as [Hx Hs]. apply negb_true_iff in Hx. now rewrite Hx, IH.
Qed.

Lemma str_nat_digits i :
  exists d, str_nat i = NilEmpty.string_of_uint d /\ d = Nat.to_uint i.
Proof.
  exists (Nat.to_uint i). split; [| reflexivity]. unfold str_nat, NilZero.string_of_uint.
  pose proof (to_uint_not_nil i). now destruct (Nat.to_uint i).
Qed.

Lemma str_nat_stop_free (stop : ascii -> bool) i :
  (forall c, stop c = true -> digit_of c = None) -> stop_free stop (str_nat i) = true.
Proof. destruct (str_nat_digits i) as [d [-> _]]. apply digits_stop_free. Qed.

Lemma str_nat_lacks c i : digit_of c = None -> contains c (str_nat i) = false.
Proof.
  intros Hc. apply stop_free_contains, str_nat_stop_free.
  intros x Hx. apply Ascii.eqb_eq in Hx. now subst x.
Qed.

Lemma int_body_digits d : forall st a,
  d <> Decimal.Nil \/ st = IntDigit ->
  int_body st (Z.of_nat a) (NilEmpty.string_of_uint d) = Some (Z.of_nat (Nat.of_uint_acc d a)).
Proof.
  induction d; intros st a Hd;
    try (simpl NilEmpty.string_of_uint; simpl Nat.of_uint_acc; cbn [int_body];
         match goal with
         | |- context [digit_of ?c] =>
             let v := eval vm_compute in (digit_of c) in
             change (digit_of c) with v; cbv iota
         end;
         rewrite <- (IHd IntDigit) by (now right); f_equal;
         rewrite Nat.tail_mul_spec; lia).
  simpl. destruct Hd as [Hd | ->]; [contradiction | reflexivity].
Qed.

Lemma space_not_digit c : is_space c = true -> digit_of c = None.
Proof.
  intros Hc. unfold digit_of, is_space in *.
  destruct ((48 <=? nat_of_ascii c)%nat && (nat_of_ascii c <=? 57)%nat) eqn:E;
    [| reflexivity].
  exfalso. apply andb_true_iff in E as [E1 E2].
  apply Nat.leb_le in E1, E2. revert Hc.
  repeat match goal with
         | |- context [(?a <=? ?b)%nat] => destruct (Nat.leb_spec a b)
         | |- context [(?a =? ?b)%nat] => destruct (Nat.eqb_spec a b)
         end; simpl; try discriminate; lia.
Qed.

Lemma int_str_nat i : int (str_nat i) = Some (Z.of_nat i).
Proof.
  destruct (str_nat_digits i) as [d [Hs Hd]].
  assert (Hnil : d <> Decimal.Nil) by (subst d; apply to_uint_not_nil).
  unfold int. rewrite strip_space_free by apply str_nat_stop_free, space_not_digit.
  rewrite Hs.
  assert (Hbody : int_body IntStart 0 (NilEmpty.string_of_uint d) = Some (Z.of_nat i)).
  { change 0 with (Z.of_nat 0). rewrite (int_body_digits d IntStart 0%nat (or_introl Hnil)).
    subst d. change (Nat.of_uint_acc (Nat.to_uint i) 0) with (Nat.of_uint (Nat.to_uint i)).
    now rewrite DecimalNat.Unsigned.of_to. }
  destruct d; exact Hbody.
Qed.

Lemma int_minus_str_nat i : int (String "-" (str_nat i)) = Some (- Z.of_nat i).
Proof.
  pose proof (int_str_nat i) as Hint. unfold int in *.
  pose proof (str_nat_stop_free is_space i space_not_digit) as Hfree.
  rewrite (strip_space_free _ Hfree) in Hint.
  rewrite strip_space_free by (simpl; now rewrite Hfree).
  destruct (str_nat_digits i) as [d [Hs Hd]].
  rewrite Hs in *. destruct d; simpl in Hint |- *; now rewrite Hint.
Qed.

Lemma bare_index_part result text :
  contains "]" text = false ->
  path_part result ("[" +:+ text +:+ "]") =
    (if String.eqb text "*" then
       match result with
       | JArray _ => Val (Next result)
       | _ => Val (Return (JObject []))
       end
     else
       match int text with
       | Some idx =>
           match result with
           | JArray items =>
               if (0 <=? idx) && (idx <? Z.of_nat (length items)) then
                 match items !! Z.to_nat idx with
                 | Some x => Val (Next x)
                 | None => Val (Return (JObject []))
                 end
               else Val (Return (JObject []))
           | _ => Val (Return (JObject []))
           end
       | None => Val (Return (JObject []))
       end).
Proof.
  intros Ht. exact (path_part_bracketed result "" text eq_refl eq_refl Ht).
Qed.

(** X20: an index written as a decimal number selects that position: for
    every [n], [int] reads the decimal text of [n] back as [n], and the
    path [[n]] on a list returns its element [n], or the empty object when
    the list is not that long. *)
Theorem decimal_index_selects_position (items : list json) (n : nat) :
  int (str_nat n) = Some (Z.of_nat n) /\
  _apply_path_filter (JArray items) ("[" +:+ str_nat n +:+ "]") =
    Val match items !! n with
        | Some x => x
        | None => JObject []
        end.
Proof.
  split; [apply int_str_nat |].
  unfold _apply_path_filter. rewrite split_no_sep.
  2:{ change ("[" +:+ str_nat n +:+ "]") with (String "[" (str_nat n +:+ "]")).
      simpl. rewrite contains_append, (str_nat_lacks "." n eq_refl). reflexivity. }
  simpl. rewrite (bare_index_part _ _ (str_nat_lacks "]" n eq_refl)).
  destruct (String.eqb_spec (str_nat n) "*") as [Hstar|_].
  { pose proof (str_nat_lacks "*" n eq_refl) as H. rewrite Hstar in H. discriminate. }
  rewrite int_str_nat, Nat2Z.id.
  destruct (items !! n) as [x|] eqn:Hx.
  - apply lookup_lt_Some in Hx.
    replace ((0 <=? Z.of_nat n) && (Z.of_nat n <? Z.of_nat (length items))) with true;
      [reflexivity |].
    symmetry. apply andb_true_iff. split; [apply Z.leb_le | apply Z.ltb_lt]; lia.
  - now destruct ((0 <=? Z.of_nat n) && (Z.of_nat n <? Z.of_nat (length items))).
Qed.

(** X21: a negative index does not count from the end of the list, as it
    would on a Python list: the path [[-n]] with [n > 0] gives the empty
    object on every list, and [[-0]] is the first element. *)
Theorem negative_index_gives_empty_object (items : list json) (n : nat) :
  int ("-" +:+ str_nat n) = Some (- Z.of_nat n) /\
  _apply_path_filter (JArray items) ("[-" +:+ str_nat n +:+ "]") =
    Val (if (n =? 0)%nat then match items with x :: _ => x | [] => JObject [] end
         else JObject []).
Proof.
  split; [apply int_minus_str_nat |].
  change ("[-" +:+ str_nat n +:+ "]") with ("[" +:+ String "-" (str_nat n) +:+ "]").
  assert (Hclose : contains "]" (String "-" (str_nat n)) = false)
    by (simpl; apply (str_nat_lacks "]" n eq_refl)).
  unfold _apply_path_filter. rewrite split_no_sep.
  2:{ change ("[" +:+ String "-" (str_nat n) +:+ "]")
        with (String "[" (String "-" (str_nat n +:+ "]"))).
      simpl. rewrite contains_append, (str_nat_lacks "." n eq_refl). reflexivity. }
  simpl path_loop. rewrite (bare_index_part _ _ Hclose).
  replace (String.eqb (String "-" (str_nat n)) "*") with false by reflexivity.
  rewrite int_minus_str_nat.
  destruct n as [|n].
  - simpl. destruct items; reflexivity.
  - replace (0 <=? - Z.of_nat (S n)) with false; [reflexivity |].
    symmetry. apply Z.leb_gt. lia.
Qed.
